(** * sRGB database: lightness table, catalog quantisation and the
      adaptive minimum-separation search

    A shallow embedding of four programs of the repository:

    - [Search]     : the contrast test, src/unnamed/part_000 (pair keys,
                     the search loop), with [Partition] (the loading of
                     the catalog) and [SearchCounters];
    - [Catalog]    : the database generator, src/unnamed/part_001
                     ([roundLightness]), with [Generator] (the rows and
                     the batches);
    - [Precompute] : src/dist/precompute-lightness.js (the lightness
                     table);
    - [Measure]    : the statistics of src/unnamed/part_002
                     (src/dist/measure-lightness-y-range.js).

    Number model.  A JavaScript [number] that only holds an integer (a
    colour channel, a scale step, a counter) is a [Z].  The other numbers
    are binary64 values in the source; they are modelled by exact
    arithmetic: by [Q] where the code only compares, adds, multiplies,
    divides and rounds ([Search], [Catalog], [Measure]), and by [R] where
    it calls [Math.exp], [Math.log], [Math.cbrt] and [Math.sqrt]
    ([Precompute]).  Rounding error of binary64 arithmetic is not
    modelled: a theorem that states an exact equation between computed
    values says so, and the bounds on [roundLightness] and on the
    statistics are stated with the margin that binary64 needs. *)

From Stdlib Require Import ZArith QArith Qround Qminmax Reals Psatz Ascii.
From stdpp Require Import base option list strings pretty gmap.

(** ** JavaScript primitives *)

Module Js.

(** [String(n)] for an integral number. *)
Definition Number_toString (n : Z) : string := pretty n.

(** [Math.floor] on the rational model. *)
Definition Math_floor (x : Q) : Z := Qfloor x.

(** [Math.round]: the closest integer, a tie going towards +infinity. *)
Definition Math_round (x : Q) : Z := Qfloor (x + (1 # 2)).

(** [a < b] on the rational model. *)
Definition Qlt_bool (a b : Q) : bool := negb (Qle_bool b a).

(** [array[i]]: [undefined] outside the array. *)
Definition Array_get {A : Type} (a : list A) (i : Z) : option A :=
  if (i <? 0)%Z then None else a !! Z.to_nat i.

(** A [Map<number, V>] in insertion order; keys are compared as numbers. *)
Definition Map (V : Type) : Type := list (Q * V).

Fixpoint Map_get {V : Type} (m : Map V) (k : Q) : option V :=
  match m with
  | [] => None
  | (k', v) :: m' => if Qeq_bool k' k then Some v else Map_get m' k
  end.

(** A JavaScript object together with its identity: [oid] is the rank of
    the constructor call that made it, [obj] its current contents.  A
    method that mutates the object changes [obj] and keeps [oid]. *)
Record Instance (F : Type) : Type := mkInstance { oid : nat; obj : F }.
Arguments mkInstance {F} _ _.
Arguments oid {F} _.
Arguments obj {F} _.

End Js.

(** ** The bloom-filters package, as an interface *)

(** [BloomFilter.create(nbItems, errorRate)], [filter.has(key)] and
    [filter.add(key)] (which mutates the filter, here returns it). *)
Class BloomFilter (F : Type) : Type := {
  BloomFilter_create : Z -> Q -> F;
  BloomFilter_has : F -> string -> bool;
  BloomFilter_add : F -> string -> F
}.

(** A filter may answer [true] for a key that was never added, but it
    answers [true] for every key that was. *)
Class NoFalseNegative (F : Type) `{BloomFilter F} : Prop := {
  has_add_same : forall (f : F) (k : string),
    BloomFilter_has (BloomFilter_add f k) k = true;
  has_add_mono : forall (f : F) (k k' : string),
    BloomFilter_has f k' = true ->
    BloomFilter_has (BloomFilter_add f k) k' = true
}.

(** An exact set of keys: the deterministic implementation of the
    interface. *)
Definition ExactSet : Type := list string.

#[export] Instance ExactSet_filter : BloomFilter ExactSet := {
  BloomFilter_create := fun _ _ => [];
  BloomFilter_has := fun f k => bool_decide (k ∈ f);
  BloomFilter_add := fun f k => k :: f
}.

(** ** The contrast test (src/unnamed/part_000) *)

Module Search.
Import Js.

Record Color : Type := mkColor {
  r : Z;
  g : Z;
  b : Z;
  y : Q;
  rounded_ok_l : Q
}.

Record TestState (F : Type) : Type := mkTestState {
  distance : Z;
  testCount : Z;
  totalTestsRun : Z;
  testedCombinations : Instance F
}.
Arguments mkTestState {F} _ _ _ _.
Arguments distance {F} _.
Arguments testCount {F} _.
Arguments totalTestsRun {F} _.
Arguments testedCombinations {F} _.

(** [CONFIG] *)
Definition RGB_MULTIPLIERS_RED : Z := 65536.
Definition RGB_MULTIPLIERS_GREEN : Z := 256.
Definition RGB_MULTIPLIERS_BLUE : Z := 1.
Definition BLOOM_FILTER_EXPECTED_ITEMS : Z := 100000000.
Definition BLOOM_FILTER_FALSE_POSITIVE_RATE : Q := 0.001.
Definition CONTRAST_MIN_RATIO : Q := 4.5.
Definition CONTRAST_INITIAL_DISTANCE : Z := 571.
Definition LIGHTNESS_MAX_STEP : Z := 1000.
Definition TEST_MAX_TESTS : Z := 100000000.

Definition rgbToNumericValue (color : Color) : Z :=
  (r color * RGB_MULTIPLIERS_RED
   + g color * RGB_MULTIPLIERS_GREEN
   + b color * RGB_MULTIPLIERS_BLUE)%Z.

Definition createColorPairKey (color1 color2 : Color) : string :=
  let val1 := rgbToNumericValue color1 in
  let val2 := rgbToNumericValue color2 in
  let '(first, second) :=
    if (val1 <=? val2)%Z then (color1, color2) else (color2, color1) in
  Number_toString (r first) +:+ "," +:+ Number_toString (g first) +:+ ","
  +:+ Number_toString (b first) +:+ "|"
  +:+ Number_toString (r second) +:+ "," +:+ Number_toString (g second)
  +:+ "," +:+ Number_toString (b second).

(** The (r,g,b) triple of a colour. *)
Definition rgb (c : Color) : Z * Z * Z := (r c, g c, b c).

(** Integer channels in [0,255]. *)
Definition channels_ok (c : Color) : Prop :=
  (0 <= r c <= 255)%Z /\ (0 <= g c <= 255)%Z /\ (0 <= b c <= 255)%Z.

(** Modelled from the spec: [wcagContrast.luminance(a, b)] belongs to the
    wcag-contrast package, whose source is not part of the repository;
    the spec gives [(max(y1,y2) + 0.05) / (min(y1,y2) + 0.05)]. *)
Definition wcagContrast_luminance (a b : Q) : Q :=
  (Qmax a b + 0.05) / (Qmin a b + 0.05).

(** [Math.random] is an oracle: [rnd n] is what its [n]-th call returns.
    The functions below take the rank of the next call and give back the
    rank after their own calls. *)
Definition getRandomColorWithLightness
    (colorsByLightness : Map (list Color)) (lightness : option Q)
    (rnd : nat -> Q) (n : nat) : option Color * nat :=
  match lightness with
  | None => (None, n)                  (* Map.get(undefined) *)
  | Some l =>
      match Map_get colorsByLightness l with
      | None => (None, n)
      | Some colors =>
          if (Z.of_nat (length colors) =? 0)%Z then (None, n)
          else
            let randomIndex :=
              Math_floor (rnd n * inject_Z (Z.of_nat (length colors))) in
            (Array_get colors randomIndex, S n)
      end
  end.

(** What the program does besides updating [state]: the calls of
    [testedCombinations.add] and of [wcagContrast.luminance], newest
    first.  A call of the contrast evaluator is recorded with the
    distance under test, the filter instance in use and the pair key. *)
Inductive Event : Type :=
| Added (filter : nat) (pairKey : string)
| Evaluated (dist : Z) (filter : nat) (pairKey : string).

(** Which way one pass through the loop body went. *)
Inductive Outcome : Type :=
| NoColors        (* [continue] after the warning *)
| AlreadyTested   (* [continue] after [testedCombinations.has] *)
| Passed          (* contrast >= MIN_RATIO *)
| Failed.         (* contrast < MIN_RATIO: distance escalated *)

(** A bucket that [getRandomColorWithLightness] cannot draw from: no
    lightness, no entry in the map, or an empty array. *)
Definition emptyBucket (colorsByLightness : Map (list Color))
    (lightness : option Q) : Prop :=
  match lightness with
  | None => True
  | Some l =>
      match Map_get colorsByLightness l with
      | None => True
      | Some colors => colors = []
      end
  end.

Section Loop.
Context {F : Type} `{BloomFilter F}.

Record Machine : Type := mkMachine {
  state : TestState F;
  randoms : nat;   (* calls of [Math.random] so far *)
  created : nat;   (* calls of [createBloomFilter] so far *)
  trace : list Event
}.

Definition createBloomFilter (n : nat) : Instance F * nat :=
  (mkInstance n (BloomFilter_create BLOOM_FILTER_EXPECTED_ITEMS
                   BLOOM_FILTER_FALSE_POSITIVE_RATE), S n).

Variable colorsByLightness : Map (list Color).
Variable lightnessValues : gmap Z Q.
Variable rnd : nat -> Q.

(** The first half of the loop body: the two steps, their lightness
    values and the two colours drawn for them, with the rank of the next
    [Math.random] call. *)
Definition drawSteps (m : Machine) : Z * Z :=
  let step1 :=
    Math_floor (rnd (randoms m)
                * inject_Z (LIGHTNESS_MAX_STEP + 1 - distance (state m))) in
  let step2 := (step1 + distance (state m))%Z in
  (step1, step2).

Definition drawColors (m : Machine) : option Color * option Color * nat :=
  let '(step1, step2) := drawSteps m in
  let lightness1 := lightnessValues !! step1 in
  let lightness2 := lightnessValues !! step2 in
  let '(color1, n1) :=
    getRandomColorWithLightness colorsByLightness lightness1 rnd
      (S (randoms m)) in
  let '(color2, n2) :=
    getRandomColorWithLightness colorsByLightness lightness2 rnd n1 in
  (color1, color2, n2).

(** One pass through the body of the [while] loop. *)
Definition loopBody (m : Machine) : Outcome * Machine :=
  let st := state m in
  let '(color1, color2, n2) := drawColors m in
  match color1, color2 with
  | Some color1, Some color2 =>
      let pairKey := createColorPairKey color1 color2 in
      let filter := testedCombinations st in
      if BloomFilter_has (obj filter) pairKey then
        (AlreadyTested, mkMachine st n2 (created m) (trace m))
      else
        let filter' :=
          mkInstance (oid filter) (BloomFilter_add (obj filter) pairKey) in
        let contrast := wcagContrast_luminance (y color1) (y color2) in
        let events :=
          Evaluated (distance st) (oid filter) pairKey
          :: Added (oid filter) pairKey :: trace m in
        let testCount' := (testCount st + 1)%Z in
        let totalTestsRun' := (totalTestsRun st + 1)%Z in
        if Qlt_bool contrast CONTRAST_MIN_RATIO then
          let '(fresh, created') := createBloomFilter (created m) in
          (Failed,
           mkMachine (mkTestState (distance st + 1)%Z 0%Z totalTestsRun' fresh)
             n2 created' events)
        else
          (Passed,
           mkMachine
             (mkTestState (distance st) testCount' totalTestsRun' filter')
             n2 (created m) events)
  | _, _ => (NoColors, mkMachine st n2 (created m) (trace m))
  end.

(** [while (state.testCount < MAX_TESTS) { ... }] *)
Definition loopCondition (m : Machine) : bool :=
  (testCount (state m) <? TEST_MAX_TESTS)%Z.

(** The machine after at most [n] passes through the loop. *)
Fixpoint iterations (n : nat) (m : Machine) : Machine :=
  match n with
  | O => m
  | S n' =>
      if loopCondition m then iterations n' (snd (loopBody m)) else m
  end.

Definition initialMachine : Machine :=
  let '(filter, created') := createBloomFilter 0 in
  mkMachine
    (mkTestState CONTRAST_INITIAL_DISTANCE 0%Z 0%Z filter) 0 created' [].

(** The loop started in [m]: with enough fuel, the arguments of
    [reportSuccess]; [None] while the loop is still running. *)
Definition runFrom (fuel : nat) (m : Machine) : option (Z * Z) :=
  let m' := iterations fuel m in
  if loopCondition m' then None
  else Some (distance (state m'), totalTestsRun (state m')).

Definition runContrastTests (fuel : nat) : option (Z * Z) :=
  runFrom fuel initialMachine.

(** The pair keys handed to [wcagContrast.luminance], each with the
    distance under test. *)
Fixpoint evaluations (t : list Event) : list (Z * string) :=
  match t with
  | [] => []
  | Evaluated d _ k :: t' => (d, k) :: evaluations t'
  | Added _ _ :: t' => evaluations t'
  end.

(** Every call of the contrast evaluator comes right after the call of
    [add] for the same key on the same filter. *)
Fixpoint addedBeforeEvaluated (t : list Event) : Prop :=
  match t with
  | [] => True
  | Added _ _ :: t' => addedBeforeEvaluated t'
  | Evaluated _ f k :: t' =>
      match t' with
      | Added f' k' :: _ => f = f' /\ k = k'
      | _ => False
      end /\ addedBeforeEvaluated t'
  end.

End Loop.

Arguments Machine F : clear implicits.

(** *** Definitions for the proofs *)

(** The two delimiters of a pair key, and the strings free of them. *)
Definition separator (c : ascii) : Prop := c = ","%char \/ c = "|"%char.

Fixpoint plain (s : string) : Prop :=
  match s with
  | EmptyString => True
  | String c s' => ~ separator c /\ plain s'
  end.

(** The key written for an ordered pair. *)
Definition orderedKey (first second : Color) : string :=
  Number_toString (r first) +:+ "," +:+ Number_toString (g first) +:+ ","
  +:+ Number_toString (b first) +:+ "|"
  +:+ Number_toString (r second) +:+ "," +:+ Number_toString (g second)
  +:+ "," +:+ Number_toString (b second).

Section Invariants.
Context {F : Type} `{BloomFilter F}.

(** Filter instances and distances of the recorded evaluations go
    together. *)
Definition instanceInv (m : Machine F) : Prop :=
  (oid (testedCombinations (state m)) < created m)%nat
  /\ (forall d f k, Evaluated d f k ∈ trace m ->
        (d <= distance (state m))%Z
        /\ (f <= oid (testedCombinations (state m)))%nat
        /\ (d = distance (state m)
            <-> f = oid (testedCombinations (state m))))
  /\ (forall d1 f1 k1 d2 f2 k2,
        Evaluated d1 f1 k1 ∈ trace m -> Evaluated d2 f2 k2 ∈ trace m ->
        d1 = d2 <-> f1 = f2).

(** Every key evaluated at the current distance is in the current
    filter, and no (distance, key) was evaluated twice. *)
Definition seenInv (m : Machine F) : Prop :=
  (forall d k, (d, k) ∈ evaluations (trace m) ->
     (d <= distance (state m))%Z
     /\ (d = distance (state m) ->
         BloomFilter_has (obj (testedCombinations (state m))) k = true))
  /\ NoDup (evaluations (trace m))
  /\ addedBeforeEvaluated (trace m).

End Invariants.

End Search.

(** ** The catalog partition of the contrast test (src/unnamed/part_000) *)

Module Partition.
Import Js Search.

(** [map.has(k)] *)
Definition Map_has {V : Type} (m : Map V) (k : Q) : bool :=
  match Map_get m k with
  | Some _ => true
  | None => false
  end.

(** [map.set(k, v)]: an existing key keeps its place, a new one goes to
    the end. *)
Fixpoint Map_set {V : Type} (m : Map V) (k : Q) (v : V) : Map V :=
  match m with
  | [] => [(k, v)]
  | (k', v') :: m' =>
      if Qeq_bool k' k then (k', v) :: m' else (k', v') :: Map_set m' k v
  end.

(** One turn of the [for ... of stmt.iterate()] loop.  The array got
    from the map is the one stored in it, so [colors.push(color)] shows
    in the map. *)
Definition loadColor (st : Map (list Color) * Z) (color : Color)
  : Map (list Color) * Z :=
  let '(colorsByLightness, loaded) := st in
  let lightness := rounded_ok_l color in
  let colorsByLightness :=
    if negb (Map_has colorsByLightness lightness)
    then Map_set colorsByLightness lightness []
    else colorsByLightness in
  let colorsByLightness :=
    match Map_get colorsByLightness lightness with
    | Some colors => Map_set colorsByLightness lightness (colors ++ [color])
    | None => colorsByLightness
    end in
  (colorsByLightness, (loaded + 1)%Z).

(** The loop over the rows of [SELECT r, g, b, y, rounded_ok_l FROM
    colors], with the counter [loaded]. *)
Definition loadLoop (rows : list Color) : Map (list Color) * Z :=
  fold_left loadColor rows ([], 0%Z).

Definition loadColorsIntoMemory (rows : list Color) : Map (list Color) :=
  fst (loadLoop rows).

(** The rows of a lightness, in catalog order. *)
Definition rowsOf (rows : list Color) (lightness : Q) : list Color :=
  filter (fun c => Qeq_bool (rounded_ok_l c) lightness = true) rows.

(** *** Definitions for the proofs *)

(** Keys that are pairwise different numbers. *)
Fixpoint distinctKeys {V : Type} (m : Map V) : Prop :=
  match m with
  | [] => True
  | (k, _) :: m' => Map_get m' k = None /\ distinctKeys m'
  end.

End Partition.

(** ** The counters of the search loop (src/unnamed/part_000) *)

Module SearchCounters.
Import Js Search.

(** The evaluations made at one distance. *)
Definition evaluationsAt (d : Z) (t : list Event) : list (Z * string) :=
  filter (fun e => e.1 = d) (evaluations t).

Section Counters.
Context {F : Type} `{BloomFilter F}.

(** The counters of the state against the record of evaluations. *)
Definition countersInv (m : Machine F) : Prop :=
  totalTestsRun (state m) = Z.of_nat (length (evaluations (trace m)))
  /\ testCount (state m)
     = Z.of_nat (length (evaluationsAt (distance (state m)) (trace m)))
  /\ (forall e, e ∈ evaluations (trace m) -> (e.1 <= distance (state m))%Z)
  /\ distance (state m)
     = (CONTRAST_INITIAL_DISTANCE + Z.of_nat (created m) - 1)%Z
  /\ S (oid (testedCombinations (state m))) = created m
  /\ (testCount (state m) <= TEST_MAX_TESTS)%Z.

End Counters.

End SearchCounters.

(** ** The database generator (src/unnamed/part_001) *)

Module Catalog.
Import Js.

(** [CONFIG] *)
Definition LIGHTNESS_PRECISION : Q := 100.
Definition LIGHTNESS_CAP_THRESHOLD : Q := 0.995.
Definition NEAR_WHITE_LIGHTNESS : Q := 0.99.
Definition PURE_WHITE_LIGHTNESS : Q := 1.

(** The product [ok_l * LIGHTNESS_PRECISION] is exact here.  The code
    rounds it to binary64 before [Math.round], which can move a value
    onto a tie: for the double nearest 0.015 the code gives 0.02 and the
    exact product 0.01. *)
Definition roundLightness (ok_l : Q) : Q :=
  if Qle_bool LIGHTNESS_CAP_THRESHOLD ok_l
     && Qlt_bool ok_l PURE_WHITE_LIGHTNESS
  then NEAR_WHITE_LIGHTNESS
  else if Qle_bool PURE_WHITE_LIGHTNESS ok_l
  then PURE_WHITE_LIGHTNESS
  else inject_Z (Math_round (ok_l * LIGHTNESS_PRECISION))
       / LIGHTNESS_PRECISION.

End Catalog.

(** ** The rows of the database generator (src/unnamed/part_001) *)

Module Generator.
Import Js Catalog.

(** [CONFIG] *)
Definition BATCH_SIZE : Z := 10000.
Definition RGB_MAX : Z := 256.
Definition RGB_NORMALIZE_DIVISOR : Q := 255.

Record ColorData : Type := mkColorData {
  r : Z;
  g : Z;
  b : Z;
  x : Q;
  y : Q;
  z : Q;
  ok_h : Q;
  ok_s : Q;
  ok_l : Q;
  rounded_ok_l : Q
}.

Definition ColorTuple : Type := Z * Z * Z * Q * Q * Q * Q * Q * Q * Q.

(** The coordinates colorjs.io gives: a coordinate can be [null]. *)
Definition Coords : Type := option Q * option Q * option Q.

(** [for (let i = from; i < from + n; i++) { st = body(st, i) }]: [n] is
    the number of turns left. *)
Fixpoint forLoop {S : Type} (body : S -> Z -> S) (st : S) (i : Z) (n : nat)
  : S :=
  match n with
  | O => st
  | S n' => forLoop body (body st i) (i + 1)%Z n'
  end.

(** [a ?? 0] *)
Definition orZero (a : option Q) : Q := default 0%Q a.

Section Generate.

(** [new Color("srgb", [..]).to("xyz-d65").coords] and
    [.to("okhsl").coords] of the colorjs.io package. *)
Variable to_xyz_d65 : Q * Q * Q -> Coords.
Variable to_okhsl : Q * Q * Q -> Coords.

Definition convertRgbToColorData (r g b : Z) : ColorData :=
  let color :=
    (inject_Z r / RGB_NORMALIZE_DIVISOR,
     inject_Z g / RGB_NORMALIZE_DIVISOR,
     inject_Z b / RGB_NORMALIZE_DIVISOR)%Q in
  let '(x, y, z) := to_xyz_d65 color in
  let '(ok_h, ok_s, ok_l) := to_okhsl color in
  mkColorData r g b (orZero x) (orZero y) (orZero z)
    (orZero ok_h) (orZero ok_s) (orZero ok_l)
    (roundLightness (orZero ok_l)).

Definition colorDataToTuple (data : ColorData) : ColorTuple :=
  (r data, g data, b data, x data, y data, z data,
   ok_h data, ok_s data, ok_l data, rounded_ok_l data).

(** The state of [generateColors]: the pending [batch], the counter
    [processed], and the transactions committed by [insertMany], oldest
    first; the table is their concatenation, in order of row id. *)
Record Progress : Type := mkProgress {
  batch : list ColorTuple;
  processed : Z;
  committed : list (list ColorTuple)
}.

(** The body of the innermost loop. *)
Definition pushColor (st : Progress) (r g b : Z) : Progress :=
  let colorData := convertRgbToColorData r g b in
  let batch := batch st ++ [colorDataToTuple colorData] in
  if (BATCH_SIZE <=? Z.of_nat (length batch))%Z then
    mkProgress [] (processed st + Z.of_nat (length batch))%Z
      (committed st ++ [batch])
  else mkProgress batch (processed st) (committed st).

(** The three nested [for] loops over [r], [g] and [b]. *)
Definition generateLoop (st : Progress) : Progress :=
  forLoop (fun st r =>
    forLoop (fun st g =>
      forLoop (fun st b => pushColor st r g b)
        st 0%Z (Z.to_nat RGB_MAX))
      st 0%Z (Z.to_nat RGB_MAX))
    st 0%Z (Z.to_nat RGB_MAX).

(** [if (batch.length > 0) { insertMany(batch); processed += ... }] *)
Definition flush (st : Progress) : Progress :=
  if (0 <? Z.of_nat (length (batch st)))%Z then
    mkProgress (batch st) (processed st + Z.of_nat (length (batch st)))%Z
      (committed st ++ [batch st])
  else st.

(** [generateColors(db)] on a table that holds [rows0]. *)
Definition generateColors (rows0 : list (list ColorTuple)) : Progress :=
  flush (generateLoop (mkProgress [] 0%Z rows0)).

(** *** Definitions for the proofs *)

(** The body of the innermost loop on the colour with code [v]. *)
Definition pushCode (st : Progress) (v : Z) : Progress :=
  pushColor st (v / 65536) ((v / 256) mod 256) (v mod 256).

(** The row of the colour with code [v]. *)
Definition rowOfCode (v : Z) : ColorTuple :=
  colorDataToTuple
    (convertRgbToColorData (v / 65536) ((v / 256) mod 256) (v mod 256))%Z.

End Generate.

End Generator.

(** ** The lightness table (src/dist/precompute-lightness.js) *)

Module Precompute.

Local Open Scope R_scope.

(** [throw new Error(...)]: the two messages of [reverseWCAGContrast]. *)
Inductive Error : Type :=
| InvalidLuminance (y : R)
| InvalidContrast (contrast : R).

Inductive Result (A : Type) : Type :=
| Ok (a : A)
| Throw (e : Error).
Arguments Ok {A} _.
Arguments Throw {A} _.

Definition bind {A B : Type} (x : Result A) (f : A -> Result B) : Result B :=
  match x with
  | Ok a => f a
  | Throw e => Throw e
  end.

Notation "x <- e1 ;; e2" := (bind e1 (fun x => e2))
  (at level 100, e1 at next level, right associativity).

(** [Math.round], [Math.cbrt], [Math.max], [Math.min] on the real model;
    [Math.exp], [Math.log] and [Math.sqrt] are [exp], [ln] and [sqrt]. *)
Definition Math_round (x : R) : Z := Zfloor (x + 1 / 2).

Definition Math_cbrt (x : R) : R :=
  match total_order_T 0 x with
  | inleft (left _) => exp (ln x / 3)
  | inleft (right _) => 0
  | inright _ => - exp (ln (- x) / 3)
  end.

(** [a <= b] and [a < b] as conditions. *)
Definition Rleb (a b : R) : bool := if Rle_dec a b then true else false.
Definition Rltb (a b : R) : bool := if Rlt_dec a b then true else false.

Definition Math_max (a b : R) : R := Rmax a b.
Definition Math_min (a b : R) : R := Rmin a b.

(** [CONFIG] *)
Definition SCALE_MAX : Z := 1000.
Definition LIGHTNESS_PRECISION : R := 100.
Definition WCAG_MAX_CONTRAST : R := 21.
Definition WCAG_LUMINANCE_OFFSET : R := 0.05.
Definition WCAG_THRESHOLD : R := 0.18.

(** [D65_WHITE_POINT] *)
Definition D65_X : R := 0.3127.
Definition D65_Y : R := 0.329.
Definition D65_Z_FACTOR : R := (1 - 0.3127 - 0.329) / 0.329.
Definition D65_X_FACTOR : R := 0.3127 / 0.329.

(** [TOE_CONSTANTS] *)
Definition K1 : R := 0.206.
Definition K2 : R := 0.03.
Definition K3 : R := (1 + 0.206) / (1 + 0.03).

Definition XYZ_TO_LMS_MATRIX (i j : nat) : R :=
  match i, j with
  | 0%nat, 0%nat => 0.8189330101
  | 0%nat, 1%nat => 0.3618667424
  | 0%nat, 2%nat => - 0.1288597137
  | 1%nat, 0%nat => 0.0329845436
  | 1%nat, 1%nat => 0.9293118715
  | 1%nat, 2%nat => 0.0361456387
  | 2%nat, 0%nat => 0.0482003018
  | 2%nat, 1%nat => 0.2643662691
  | 2%nat, 2%nat => 0.633851707
  | _, _ => 0
  end.

Definition LMS_TO_OKLAB_MATRIX (i j : nat) : R :=
  match i, j with
  | 0%nat, 0%nat => 0.2104542553
  | 0%nat, 1%nat => 0.793617785
  | 0%nat, 2%nat => - 0.0040720468
  | 1%nat, 0%nat => 1.9779984951
  | 1%nat, 1%nat => - 2.428592205
  | 1%nat, 2%nat => 0.4505937099
  | 2%nat, 0%nat => 0.0259040371
  | 2%nat, 1%nat => 0.7827717662
  | 2%nat, 2%nat => - 0.808675766
  | _, _ => 0
  end.

Definition scaleToContrast (scaleValue : R) : R :=
  let normalizedValue := scaleValue / IZR SCALE_MAX in
  exp (ln WCAG_MAX_CONTRAST * normalizedValue).

Definition reverseWCAGContrast (contrast y : R) : Result R :=
  if Rleb 0 y && Rleb y 1 then
    if Rleb 1 contrast && Rleb contrast WCAG_MAX_CONTRAST then
      let output :=
        if Rltb WCAG_THRESHOLD y
        then (y + WCAG_LUMINANCE_OFFSET) / contrast - WCAG_LUMINANCE_OFFSET
        else contrast * (y + WCAG_LUMINANCE_OFFSET) - WCAG_LUMINANCE_OFFSET in
      Ok (Math_max 0 (Math_min 1 output))
    else Throw (InvalidContrast contrast)
  else Throw (InvalidLuminance y).

Definition yToOklabLightness (inputY : R) : R :=
  let X := D65_X_FACTOR * inputY in
  let Y := inputY in
  let Z := D65_Z_FACTOR * inputY in
  let l := XYZ_TO_LMS_MATRIX 0 0 * X + XYZ_TO_LMS_MATRIX 0 1 * Y
           + XYZ_TO_LMS_MATRIX 0 2 * Z in
  let m := XYZ_TO_LMS_MATRIX 1 0 * X + XYZ_TO_LMS_MATRIX 1 1 * Y
           + XYZ_TO_LMS_MATRIX 1 2 * Z in
  let s := XYZ_TO_LMS_MATRIX 2 0 * X + XYZ_TO_LMS_MATRIX 2 1 * Y
           + XYZ_TO_LMS_MATRIX 2 2 * Z in
  let l := Math_max 0 l in
  let m := Math_max 0 m in
  let s := Math_max 0 s in
  let l_prime := Math_cbrt l in
  let m_prime := Math_cbrt m in
  let s_prime := Math_cbrt s in
  LMS_TO_OKLAB_MATRIX 0 0 * l_prime + LMS_TO_OKLAB_MATRIX 0 1 * m_prime
  + LMS_TO_OKLAB_MATRIX 0 2 * s_prime.

Definition toe (L : R) : R :=
  let k3L_m_k1 := K3 * L - K1 in
  0.5 * (k3L_m_k1 + sqrt (k3L_m_k1 * k3L_m_k1 + 4 * K2 * K3 * L)).

Definition yToOkhslLightness (inputY : R) : R :=
  toe (yToOklabLightness inputY).

(** [reverseWCAGContrast(wcagContrast)]: the reference luminance is the
    default argument [y = 1]. *)
Definition computeLightness (step : Z) : Result R :=
  let wcagContrast := scaleToContrast (IZR step) in
  targetLuminance <- reverseWCAGContrast wcagContrast 1 ;;
  Ok (yToOkhslLightness targetLuminance).

(** [Math.round(lightness * LIGHTNESS_PRECISION) / LIGHTNESS_PRECISION],
    the [roundedLightness] of [computeAllLightnessValues]. *)
Definition roundedLightness (lightness : R) : R :=
  IZR (Math_round (lightness * LIGHTNESS_PRECISION)) / LIGHTNESS_PRECISION.

(** The [for] loop of [computeAllLightnessValues], [n] steps from [step]. *)
Fixpoint computeLoop (n : nat) (step : Z) (lightnessValues : gmap Z R)
  : Result (gmap Z R) :=
  match n with
  | O => Ok lightnessValues
  | S n' =>
      lightness <- computeLightness step ;;
      computeLoop n' (step + 1)%Z
        (<[step := roundedLightness lightness]> lightnessValues)
  end.

Definition computeAllLightnessValues : Result (gmap Z R) :=
  computeLoop (Z.to_nat (SCALE_MAX + 1)) 0%Z ∅.

(** *** Definitions for the proofs *)

(** [reverseWCAGContrast(contrast)] when it does not throw. *)
Definition targetLuminance (contrast : R) : R :=
  Math_max 0 (Math_min 1 ((1 + 0.05) / contrast - 0.05)).

(** The table entry of a step, when nothing throws. *)
Definition tableEntry (step : Z) : R :=
  roundedLightness
    (yToOkhslLightness (targetLuminance (scaleToContrast (IZR step)))).

End Precompute.

(** ** The statistics of the lightness groups (src/unnamed/part_002,
    src/dist/measure-lightness-y-range.js) *)

Module Measure.
Import Js.

(** A number that a computation on finite numbers can give. *)
Inductive Number : Type :=
| Finite (q : Q)
| NaN
| Infinity
| NegInfinity.

Record LightnessGroupResult : Type := mkLightnessGroupResult {
  rounded_ok_l : Q;
  min_y : Q;
  max_y : Q;
  y_distance : Q;
  color_count : Z
}.

Record Statistics : Type := mkStatistics {
  totalGroups : Z;
  meanDistance : Number;
  medianDistance : Number;
  minDistance : Number;
  maxDistance : Number
}.

(** [throw new Error(message)] *)
Inductive Result (A : Type) : Type :=
| Ok (a : A)
| Throw (message : string).
Arguments Ok {A} _.
Arguments Throw {A} _.

(** [values.reduce((sum, val) => sum + val, 0) / values.length]: 0 / 0 is
    [NaN].  The sum and the quotient are exact here; the code rounds each
    addition and the division to binary64, so its mean of 0.1, 0.1 and
    0.1 is 0.10000000000000002. *)
Definition calculateMean (values : list Q) : Number :=
  let sum := fold_left Qplus values 0%Q in
  let length := Z.of_nat (length values) in
  if (length =? 0)%Z then NaN else Finite (sum / inject_Z length).

(** [[...values].sort((a, b) => a - b)]: the sort is stable and the
    comparator is consistent, so the result is that of any stable sort;
    here each value goes in front of the first one that is not below
    it. *)
Fixpoint sortInsert (x : Q) (sorted : list Q) : list Q :=
  match sorted with
  | [] => [x]
  | y :: sorted' =>
      if Qle_bool x y then x :: sorted else y :: sortInsert x sorted'
  end.

Definition Array_sort (values : list Q) : list Q :=
  foldr sortInsert [] values.

(** [undefined + undefined] is [NaN]. *)
Definition calculateMedian (values : list Q) : Number :=
  let sorted := Array_sort values in
  let length := Z.of_nat (length sorted) in
  let middle := Math_floor (inject_Z length / 2) in
  if (length mod 2 =? 0)%Z then
    match Array_get sorted (middle - 1), Array_get sorted middle with
    | Some a, Some b => Finite ((a + b) / 2)
    | _, _ => NaN
    end
  else
    match Array_get sorted middle with
    | Some a => Finite a
    | None => NaN
    end.

(** [Math.min(...values)] and [Math.max(...values)] *)
Definition Math_min (values : list Q) : Number :=
  match values with
  | [] => Infinity
  | x :: values' => Finite (fold_left Qmin values' x)
  end.

Definition Math_max (values : list Q) : Number :=
  match values with
  | [] => NegInfinity
  | x :: values' => Finite (fold_left Qmax values' x)
  end.

Definition calculateStatistics (groups : list LightnessGroupResult)
  : Result Statistics :=
  if (Z.of_nat (length groups) =? 0)%Z then
    Throw "Cannot calculate statistics for empty group list"
  else
    let distances := y_distance <$> groups in
    Ok (mkStatistics (Z.of_nat (length distances))
          (calculateMean distances) (calculateMedian distances)
          (Math_min distances) (Math_max distances)).

(** [groups.reduce((max, group) => ..)] has no initial value: it starts
    from the first group. *)
Definition findMaxDistanceGroup (groups : list LightnessGroupResult)
  : Result LightnessGroupResult :=
  match groups with
  | [] => Throw "Cannot find max distance group in empty list"
  | first :: rest =>
      Ok (fold_left
            (fun max group =>
               if Qlt_bool (y_distance max) (y_distance group)
               then group else max)
            rest first)
  end.

(** *** Definitions for the proofs *)

(** [l] is in non-decreasing order. *)
Definition ascending (l : list Q) : Prop :=
  forall (i j : nat) (a b : Q),
    (i <= j)%nat -> l !! i = Some a -> l !! j = Some b -> (a <= b)%Q.

(** The step of the [reduce] of [findMaxDistanceGroup]. *)
Definition wider (max group : LightnessGroupResult) : LightnessGroupResult :=
  if Qlt_bool (y_distance max) (y_distance group) then group else max.

End Measure.

(** ** A small catalog and two small tables *)

Module Toy.
Import Js Search.

Definition c240 : Color := mkColor 240 240 240 0.8714 0.9.
Definition c128 : Color := mkColor 128 128 128 0.2159 0.5.
Definition c130 : Color := mkColor 130 126 129 0.2120 0.5.
Definition c50 : Color := mkColor 50 50 50 0.0319 0.2.
Definition c10 : Color := mkColor 10 10 10 0.0030 0.1.

Definition colorsByLightness : Map (list Color) :=
  [(0.1, [c10]); (0.5, [c128; c130]); (0.9, [c240]); (0.2, [c50])]%Q.

Definition lightnessValues : gmap Z Q :=
  {[ 214%Z := 0.9%Q; 215%Z := 0.2%Q; 786%Z := 0.1%Q ]}.

Definition rnd (n : nat) : Q := 1 # 2.

(** A table that gives every step the lightness of one bucket: each
    test compares a colour with itself and fails. *)
Definition flatTable : gmap Z Q :=
  list_to_map ((fun s => (s, 0.5%Q)) <$> seqZ 0 1001).

Definition run (n : nat) : Machine ExactSet :=
  iterations colorsByLightness lightnessValues rnd n initialMachine.

Definition flatRun (n : nat) : Machine ExactSet :=
  iterations colorsByLightness flatTable rnd n initialMachine.

End Toy.

(** * Proofs *)

(** ** Pair keys *)

Section PairKeys.
Import Js Search.

Lemma pretty_N_char_plain (n : N) : ~ separator (pretty_N_char n).
Proof.
  unfold separator, pretty_N_char.
  repeat case_match; intros [?|?]; discriminate.
Qed.

Lemma pretty_N_go_plain (x : N) (s : string) :
  plain s -> plain (pretty_N_go x s).
Proof.
  revert s. induction (N.lt_wf_0 x) as [x _ IH]; intros s Hs.
  destruct (decide (x = 0)%N) as [->|Hx].
  - by rewrite pretty_N_go_0.
  - rewrite pretty_N_go_step by lia.
    apply IH.
    + apply N.div_lt; lia.
    + split; [apply pretty_N_char_plain | done].
Qed.

Lemma Number_toString_plain (n : Z) : (0 <= n)%Z -> plain (Number_toString n).
Proof.
  intros Hn. unfold Number_toString, pretty, pretty_Z.
  destruct n as [|p|p]; [by repeat split; intros [?|?] | | lia].
  unfold pretty, pretty_positive, pretty, pretty_N.
  case_decide; [by repeat split; intros [?|?]|].
  by apply pretty_N_go_plain.
Qed.

Lemma append_separator_inj (s1 s2 t1 t2 : string) (c1 c2 : ascii) :
  plain s1 -> plain s2 -> separator c1 -> separator c2 ->
  s1 +:+ String c1 "" +:+ t1 = s2 +:+ String c2 "" +:+ t2 ->
  s1 = s2 /\ c1 = c2 /\ t1 = t2.
Proof.
  change (String c1 "" +:+ t1) with (String c1 t1).
  change (String c2 "" +:+ t2) with (String c2 t2).
  revert s2. induction s1 as [|a s1 IH]; intros [|a' s2] H1 H2 Hc1 Hc2 Heq;
    simpl in *.
  - by injection Heq as -> ->.
  - injection Heq as -> _. by destruct H2.
  - injection Heq as -> _. by destruct H1.
  - injection Heq as -> Heq.
    destruct H1 as [_ H1], H2 as [_ H2].
    destruct (IH s2 H1 H2 Hc1 Hc2 Heq) as (-> & -> & ->). done.
Qed.

Lemma createColorPairKey_unfold (c1 c2 : Color) :
  createColorPairKey c1 c2 =
  if (rgbToNumericValue c1 <=? rgbToNumericValue c2)%Z
  then orderedKey c1 c2 else orderedKey c2 c1.
Proof.
  unfold createColorPairKey, orderedKey.
  by destruct (rgbToNumericValue c1 <=? rgbToNumericValue c2)%Z.
Qed.

Lemma rgbToNumericValue_inj (c1 c2 : Color) :
  channels_ok c1 -> channels_ok c2 ->
  rgbToNumericValue c1 = rgbToNumericValue c2 -> rgb c1 = rgb c2.
Proof.
  unfold channels_ok, rgbToNumericValue, rgb, RGB_MULTIPLIERS_RED,
    RGB_MULTIPLIERS_GREEN, RGB_MULTIPLIERS_BLUE.
  intros (? & ? & ?) (? & ? & ?) Heq.
  assert (r c1 = r c2) as -> by lia.
  assert (g c1 = g c2) as -> by lia.
  assert (b c1 = b c2) as -> by lia.
  done.
Qed.

Lemma rgbToNumericValue_rgb (c1 c2 : Color) :
  rgb c1 = rgb c2 -> rgbToNumericValue c1 = rgbToNumericValue c2.
Proof. unfold rgb, rgbToNumericValue. by intros [= -> -> ->]. Qed.

Lemma orderedKey_rgb (c1 c2 d1 d2 : Color) :
  rgb c1 = rgb d1 -> rgb c2 = rgb d2 -> orderedKey c1 c2 = orderedKey d1 d2.
Proof. unfold rgb, orderedKey. by intros [= -> -> ->] [= -> -> ->]. Qed.

Lemma orderedKey_inj (c1 c2 d1 d2 : Color) :
  channels_ok c1 -> channels_ok c2 -> channels_ok d1 -> channels_ok d2 ->
  orderedKey c1 c2 = orderedKey d1 d2 -> rgb c1 = rgb d1 /\ rgb c2 = rgb d2.
Proof.
  intros (? & ? & ?) (? & ? & ?) (? & ? & ?) (? & ? & ?).
  unfold orderedKey, rgb. simpl. intros Heq.
  repeat match goal with
  | E : Number_toString ?x +:+ _ +:+ _ = Number_toString ?y +:+ _ +:+ _
    |- _ =>
      apply append_separator_inj in E;
      [ destruct E as (?%(inj pretty) & _ & ?)
      | apply Number_toString_plain; lia
      | apply Number_toString_plain; lia
      | unfold separator; auto
      | unfold separator; auto ]
  end.
  match goal with E : Number_toString _ = Number_toString _ |- _ =>
    apply (inj pretty) in E end.
  split; congruence.
Qed.

(** A pair and the same two triples the other way round. *)
Lemma createColorPairKey_cross (c1 c2 d1 d2 : Color) :
  channels_ok c1 -> channels_ok c2 -> channels_ok d1 -> channels_ok d2 ->
  rgb c1 = rgb d2 -> rgb c2 = rgb d1 ->
  createColorPairKey c1 c2 = createColorPairKey d1 d2.
Proof.
  intros Hc1 Hc2 Hd1 Hd2 H12 H21. rewrite !createColorPairKey_unfold.
  rewrite <- (rgbToNumericValue_rgb _ _ H12).
  rewrite <- (rgbToNumericValue_rgb _ _ H21).
  destruct (Z.leb_spec (rgbToNumericValue c1) (rgbToNumericValue c2)),
           (Z.leb_spec (rgbToNumericValue c2) (rgbToNumericValue c1));
    try lia; try by apply orderedKey_rgb.
  assert (rgb c1 = rgb c2) by (apply rgbToNumericValue_inj; [done..|lia]).
  apply orderedKey_rgb; congruence.
Qed.

Lemma createColorPairKey_rgb (c1 c2 d1 d2 : Color) :
  rgb c1 = rgb d1 -> rgb c2 = rgb d2 ->
  createColorPairKey c1 c2 = createColorPairKey d1 d2.
Proof.
  intros H1 H2. rewrite !createColorPairKey_unfold.
  rewrite (rgbToNumericValue_rgb _ _ H1), (rgbToNumericValue_rgb _ _ H2).
  case_match; by apply orderedKey_rgb.
Qed.

(** C7.  The canonical pair key is symmetric: for colours with integer
    channels in [0,255], [createColorPairKey A B] and
    [createColorPairKey B A] are the same string. *)
Theorem createColorPairKey_symmetric (A B : Color) :
  channels_ok A -> channels_ok B ->
  createColorPairKey A B = createColorPairKey B A.
Proof.
  intros HA HB. rewrite !createColorPairKey_unfold.
  destruct (Z.leb_spec (rgbToNumericValue A) (rgbToNumericValue B)),
           (Z.leb_spec (rgbToNumericValue B) (rgbToNumericValue A));
    try done; try lia.
  (* equal codes: the two colours have the same triple *)
  assert (rgb A = rgb B) by (apply rgbToNumericValue_inj; [done..|lia]).
  by apply orderedKey_rgb.
Qed.

(** Outside [0,255] two different triples can share a code, and then the
    order of the arguments shows in the key. *)
Lemma createColorPairKey_out_of_range :
  createColorPairKey (mkColor 0 1 0 0 0) (mkColor 0 0 256 0 0) = "0,1,0|0,0,256"
  /\ createColorPairKey (mkColor 0 0 256 0 0) (mkColor 0 1 0 0 0)
     = "0,0,256|0,1,0".
Proof. split; reflexivity. Qed.

Lemma createColorPairKey_symmetric_witness :
  let A := mkColor 128 128 128 0.2159 0.5 in
  let B := mkColor 130 126 129 0.2120 0.5 in
  createColorPairKey A B = "128,128,128|130,126,129"
  /\ createColorPairKey A B = createColorPairKey B A.
Proof.
  split; [reflexivity|].
  apply createColorPairKey_symmetric; unfold channels_ok; simpl; lia.
Defined.

(** C9.  The canonical pair key is injective on unordered pairs: for
    colours with integer channels in [0,255], two pairs get the same key
    exactly when they have the same two (r,g,b) triples, in either order;
    and the integer code [r*65536 + g*256 + b] identifies the triple. *)
Theorem createColorPairKey_injective (A B C D : Color) :
  channels_ok A -> channels_ok B -> channels_ok C -> channels_ok D ->
  (createColorPairKey A B = createColorPairKey C D <->
   (rgb A = rgb C /\ rgb B = rgb D) \/ (rgb A = rgb D /\ rgb B = rgb C))
  /\ (rgbToNumericValue A = rgbToNumericValue B <-> rgb A = rgb B).
Proof.
  intros HA HB HC HD. split; [split|split].
  - rewrite !createColorPairKey_unfold.
    repeat case_match; intros Heq; apply orderedKey_inj in Heq; tauto.
  - intros [[H1 H2]|[H1 H2]].
    + by apply createColorPairKey_rgb.
    + by apply createColorPairKey_cross.
  - by apply rgbToNumericValue_inj.
  - apply rgbToNumericValue_rgb.
Qed.

Lemma createColorPairKey_injective_witness :
  createColorPairKey Toy.c128 Toy.c130 = createColorPairKey Toy.c130 Toy.c128
  <-> (rgb Toy.c128 = rgb Toy.c130 /\ rgb Toy.c130 = rgb Toy.c128)
      \/ (rgb Toy.c128 = rgb Toy.c128 /\ rgb Toy.c130 = rgb Toy.c130).
Proof.
  apply (createColorPairKey_injective Toy.c128 Toy.c130 Toy.c130 Toy.c128);
    unfold channels_ok; simpl; lia.
Defined.

End PairKeys.

(** ** The search loop *)

#[export] Instance ExactSet_noFalseNegative : NoFalseNegative ExactSet.
Proof.
  split; simpl.
  - intros f k. apply bool_decide_eq_true. left.
  - intros f k k' Hin. apply bool_decide_eq_true. right.
    by apply bool_decide_eq_true in Hin.
Qed.

Section LoopFacts.
Import Js Search.
Context {F : Type} `{BloomFilter F}.
Variable colorsByLightness : Map (list Color).
Variable lightnessValues : gmap Z Q.
Variable rnd : nat -> Q.

Local Abbreviation body := (loopBody colorsByLightness lightnessValues rnd).
Local Abbreviation draw := (drawColors colorsByLightness lightnessValues rnd).
Local Abbreviation iter := (iterations colorsByLightness lightnessValues rnd).

(** The four ways through the body, read off the draw. *)
Lemma loopBody_NoColors (m : Machine F) c1 c2 n2 :
  draw m = (c1, c2, n2) -> c1 = None \/ c2 = None ->
  body m = (NoColors, mkMachine (state m) n2 (created m) (trace m)).
Proof.
  intros Hd Hc. unfold loopBody. rewrite Hd.
  destruct Hc as [-> | ->]; [done | by destruct c1].
Qed.

Lemma loopBody_AlreadyTested (m : Machine F) a b n2 :
  draw m = (Some a, Some b, n2) ->
  BloomFilter_has (obj (testedCombinations (state m)))
    (createColorPairKey a b) = true ->
  body m = (AlreadyTested, mkMachine (state m) n2 (created m) (trace m)).
Proof. intros Hd Hh. unfold loopBody. by rewrite Hd, Hh. Qed.

Lemma loopBody_Failed (m : Machine F) a b n2 :
  draw m = (Some a, Some b, n2) ->
  BloomFilter_has (obj (testedCombinations (state m)))
    (createColorPairKey a b) = false ->
  Qlt_bool (wcagContrast_luminance (y a) (y b)) CONTRAST_MIN_RATIO = true ->
  body m =
  (Failed,
   mkMachine
     (mkTestState (distance (state m) + 1) 0 (totalTestsRun (state m) + 1)
        (mkInstance (created m)
           (BloomFilter_create BLOOM_FILTER_EXPECTED_ITEMS
              BLOOM_FILTER_FALSE_POSITIVE_RATE)))
     n2 (S (created m))
     (Evaluated (distance (state m)) (oid (testedCombinations (state m)))
        (createColorPairKey a b)
      :: Added (oid (testedCombinations (state m))) (createColorPairKey a b)
      :: trace m)).
Proof. intros Hd Hh Hc. unfold loopBody. by rewrite Hd, Hh, Hc. Qed.

Lemma loopBody_Passed (m : Machine F) a b n2 :
  draw m = (Some a, Some b, n2) ->
  BloomFilter_has (obj (testedCombinations (state m)))
    (createColorPairKey a b) = false ->
  Qlt_bool (wcagContrast_luminance (y a) (y b)) CONTRAST_MIN_RATIO = false ->
  body m =
  (Passed,
   mkMachine
     (mkTestState (distance (state m)) (testCount (state m) + 1)
        (totalTestsRun (state m) + 1)
        (mkInstance (oid (testedCombinations (state m)))
           (BloomFilter_add (obj (testedCombinations (state m)))
              (createColorPairKey a b))))
     n2 (created m)
     (Evaluated (distance (state m)) (oid (testedCombinations (state m)))
        (createColorPairKey a b)
      :: Added (oid (testedCombinations (state m))) (createColorPairKey a b)
      :: trace m)).
Proof. intros Hd Hh Hc. unfold loopBody. by rewrite Hd, Hh, Hc. Qed.

(** Case analysis of one pass, for the invariants below. *)
Lemma loopBody_cases (m : Machine F) :
  (exists n2, body m = (NoColors, mkMachine (state m) n2 (created m) (trace m)))
  \/ (exists n2,
        body m = (AlreadyTested, mkMachine (state m) n2 (created m) (trace m)))
  \/ exists a b n2,
       draw m = (Some a, Some b, n2)
       /\ BloomFilter_has (obj (testedCombinations (state m)))
            (createColorPairKey a b) = false
       /\ (Qlt_bool (wcagContrast_luminance (y a) (y b)) CONTRAST_MIN_RATIO
           = true
           \/ Qlt_bool (wcagContrast_luminance (y a) (y b)) CONTRAST_MIN_RATIO
           = false).
Proof.
  destruct (draw m) as [[c1 c2] n2] eqn:Hd.
  destruct c1 as [a|]; [destruct c2 as [b|]|].
  - destruct (BloomFilter_has (obj (testedCombinations (state m)))
                (createColorPairKey a b)) eqn:Hh.
    + right; left. exists n2. by apply (loopBody_AlreadyTested m a b n2).
    + right; right. exists a, b, n2. repeat split; [done|].
      destruct (Qlt_bool _ _); auto.
  - left. exists n2. eapply loopBody_NoColors; eauto.
  - left. exists n2. eapply loopBody_NoColors; eauto.
Qed.

(** *** Invariants of the loop *)

Lemma instanceInv_initial : instanceInv initialMachine.
Proof.
  unfold instanceInv, initialMachine; simpl.
  split; [lia|]. split; intros *; by rewrite elem_of_nil.
Qed.

Lemma seenInv_initial : seenInv initialMachine.
Proof.
  unfold seenInv, initialMachine; simpl.
  split; [intros *; by rewrite elem_of_nil|]. split; [constructor|done].
Qed.

Lemma instanceInv_step (m : Machine F) :
  instanceInv m -> instanceInv (snd (body m)).
Proof.
  intros (Hlt & Hcur & Hpair).
  destruct (loopBody_cases m)
    as [[n2 ->]|[[n2 ->]|(a & b & n2 & Hd & Hh & Hc)]];
    [done | done |].
  destruct Hc as [Hc|Hc];
    [rewrite (loopBody_Failed m a b n2 Hd Hh Hc)
    |rewrite (loopBody_Passed m a b n2 Hd Hh Hc)];
    unfold instanceInv; simpl.
  - split; [lia|]. split.
    + intros d f k. rewrite !elem_of_cons.
      intros [[= -> -> ->]|[[=]|Hin]]; [lia|].
      destruct (Hcur d f k Hin) as (? & ? & ?). lia.
    + intros d1 f1 k1 d2 f2 k2. rewrite !elem_of_cons.
      intros [[= -> -> ->]|[[=]|Hin1]] [[= -> -> ->]|[[=]|Hin2]].
      * done.
      * destruct (Hcur d2 f2 k2 Hin2) as (_ & _ & E).
        split; intros E'; symmetry in E'; symmetry; by apply E.
      * destruct (Hcur d1 f1 k1 Hin1) as (_ & _ & E).
        split; intros E'; by apply E.
      * by apply (Hpair d1 f1 k1 d2 f2 k2).
  - split; [lia|]. split.
    + intros d f k. rewrite !elem_of_cons.
      intros [[= -> -> ->]|[[=]|Hin]]; [done|]. by apply (Hcur d f k).
    + intros d1 f1 k1 d2 f2 k2. rewrite !elem_of_cons.
      intros [[= -> -> ->]|[[=]|Hin1]] [[= -> -> ->]|[[=]|Hin2]].
      * done.
      * destruct (Hcur d2 f2 k2 Hin2) as (_ & _ & E).
        split; intros E'; symmetry in E'; symmetry; by apply E.
      * destruct (Hcur d1 f1 k1 Hin1) as (_ & _ & E).
        split; intros E'; by apply E.
      * by apply (Hpair d1 f1 k1 d2 f2 k2).
Qed.

Lemma seenInv_step `{!NoFalseNegative F} (m : Machine F) :
  seenInv m -> seenInv (snd (body m)).
Proof.
  intros (Hcur & Hnd & Hord).
  destruct (loopBody_cases m)
    as [[n2 ->]|[[n2 ->]|(a & b & n2 & Hd & Hh & Hc)]];
    [done | done |].
  assert ((distance (state m), createColorPairKey a b)
          ∉ evaluations (trace m)) as Hnew.
  { intros Hin. destruct (Hcur _ _ Hin) as [_ Hseen].
    rewrite Hseen in Hh by done. discriminate. }
  destruct Hc as [Hc|Hc];
    [rewrite (loopBody_Failed m a b n2 Hd Hh Hc)
    |rewrite (loopBody_Passed m a b n2 Hd Hh Hc)];
    unfold seenInv; simpl.
  - split; [|split; [by constructor|done]].
    intros d k. rewrite elem_of_cons. intros [[= -> ->]|Hin]; [lia|].
    destruct (Hcur d k Hin). lia.
  - split; [|split; [by constructor|done]].
    intros d k. rewrite elem_of_cons. intros [[= -> ->]|Hin].
    + split; [lia|]. intros _. apply has_add_same.
    + destruct (Hcur d k Hin) as [? Hseen]. split; [done|].
      intros Hdk. apply has_add_mono. by apply Hseen.
Qed.

Lemma instanceInv_iterations (n : nat) (m : Machine F) :
  instanceInv m -> instanceInv (iter n m).
Proof.
  revert m. induction n as [|n IH]; intros m Hm; simpl; [done|].
  destruct (loopCondition m); [|done]. by apply IH, instanceInv_step.
Qed.

Lemma seenInv_iterations `{!NoFalseNegative F} (n : nat) (m : Machine F) :
  seenInv m -> seenInv (iter n m).
Proof.
  revert m. induction n as [|n IH]; intros m Hm; simpl; [done|].
  destruct (loopCondition m); [|done]. by apply IH, seenInv_step.
Qed.


(** *** The discarded passes *)

Lemma getRandomColorWithLightness_emptyBucket (lightness : option Q) (n : nat) :
  emptyBucket colorsByLightness lightness ->
  getRandomColorWithLightness colorsByLightness lightness rnd n = (None, n).
Proof.
  unfold emptyBucket, getRandomColorWithLightness.
  destruct lightness as [l|]; [|done].
  destruct (Map_get colorsByLightness l) as [colors|]; [|done].
  by intros ->.
Qed.

(** With no table entry above [LIGHTNESS_MAX_STEP], a distance above it
    leaves nothing to draw for [step2]. *)
Lemma drawColors_beyond_scale (m : Machine F) :
  (forall i, (0 <= rnd i /\ rnd i < 1)%Q) ->
  (forall k, (LIGHTNESS_MAX_STEP < k)%Z -> lightnessValues !! k = None) ->
  (LIGHTNESS_MAX_STEP < distance (state m))%Z ->
  exists c1 n2, draw m = (c1, None, n2).
Proof.
  intros Hrnd Htable Hdist. unfold drawColors, drawSteps.
  remember (LIGHTNESS_MAX_STEP + 1 - distance (state m))%Z as k eqn:Hkdef.
  set (step1 := Math_floor (rnd (randoms m) * inject_Z k)).
  assert (k <= step1)%Z as Hstep.
  { unfold step1, Math_floor.
    rewrite <- (Qfloor_Z k) at 1. apply Qfloor_resp_le.
    destruct (Hrnd (randoms m)) as [H0 H1].
    assert (inject_Z k <= 0)%Q as Hk.
    { change 0%Q with (inject_Z 0). rewrite <- Zle_Qle. lia. }
    nra. }
  rewrite (Htable (step1 + distance (state m))%Z) by lia.
  destruct (getRandomColorWithLightness _ (lightnessValues !! step1) _ _)
    as [c1 n1].
  simpl. by exists c1, n1.
Qed.

Lemma iterations_beyond_scale (n : nat) (m : Machine F) :
  (forall i, (0 <= rnd i /\ rnd i < 1)%Q) ->
  (forall k, (LIGHTNESS_MAX_STEP < k)%Z -> lightnessValues !! k = None) ->
  (LIGHTNESS_MAX_STEP < distance (state m))%Z ->
  state (iter n m) = state m /\ trace (iter n m) = trace m
  /\ created (iter n m) = created m.
Proof.
  intros Hrnd Htable. revert m.
  induction n as [|n IH]; intros m Hdist; simpl; [done|].
  destruct (loopCondition m); [|done].
  destruct (drawColors_beyond_scale m Hrnd Htable Hdist) as (c1 & n2 & Hd).
  rewrite (loopBody_NoColors m c1 None n2 Hd) by auto. simpl.
  apply (IH (mkMachine (state m) n2 (created m) (trace m))). done.
Qed.

Local Abbreviation steps := (drawSteps rnd).

Lemma drawColors_emptyBucket (m : Machine F) step1 step2 c1 c2 n2 :
  steps m = (step1, step2) -> draw m = (c1, c2, n2) ->
  emptyBucket colorsByLightness (lightnessValues !! step1)
  \/ emptyBucket colorsByLightness (lightnessValues !! step2) ->
  c1 = None \/ c2 = None.
Proof.
  unfold drawColors. intros -> Hd [He|He].
  - rewrite (getRandomColorWithLightness_emptyBucket _ _ He) in Hd.
    destruct (getRandomColorWithLightness _ (lightnessValues !! step2) _ _).
    left. congruence.
  - destruct (getRandomColorWithLightness _ (lightnessValues !! step1) _ _)
      as [c1' n1].
    rewrite (getRandomColorWithLightness_emptyBucket _ _ He) in Hd.
    right. congruence.
Qed.

Lemma iterations_stopped (n : nat) (m : Machine F) :
  loopCondition m = false -> iter n m = m.
Proof. intros Hc. destruct n; simpl; [done|by rewrite Hc]. Qed.

Lemma iterations_add (n1 n2 : nat) (m : Machine F) :
  iter (n1 + n2) m = iter n2 (iter n1 m).
Proof.
  revert m. induction n1 as [|n1 IH]; intros m; simpl; [done|].
  destruct (loopCondition m) eqn:Hc; [apply IH|].
  by rewrite iterations_stopped.
Qed.

(** A run that gets beyond the scale never returns. *)
Lemma runContrastTests_beyond_scale (n0 fuel : nat) :
  (forall i, (0 <= rnd i /\ rnd i < 1)%Q) ->
  (forall k, (LIGHTNESS_MAX_STEP < k)%Z -> lightnessValues !! k = None) ->
  (LIGHTNESS_MAX_STEP < distance (state (iter n0 initialMachine)))%Z ->
  loopCondition (iter n0 initialMachine) = true ->
  runContrastTests colorsByLightness lightnessValues rnd fuel = None.
Proof.
  intros Hrnd Htable Hdist Hcond. unfold runContrastTests, runFrom.
  destruct (loopCondition (iter fuel initialMachine)) eqn:Hstop; [done|].
  exfalso.
  pose proof (iterations_add fuel n0 initialMachine) as Hfirst.
  rewrite (iterations_stopped n0 _ Hstop) in Hfirst.
  pose proof (iterations_add n0 fuel initialMachine) as Hthen.
  rewrite Nat.add_comm, Hfirst in Hthen.
  destruct (iterations_beyond_scale fuel (iter n0 initialMachine)
              Hrnd Htable Hdist) as (Hstate & _).
  rewrite <- Hthen in Hstate.
  unfold loopCondition in Hstop, Hcond.
  rewrite Hstate, Hcond in Hstop. discriminate Hstop.
Qed.

(** C8.  A discarded pass leaves the search state as it was: when one of
    the two buckets is empty (no colour is drawn), or the filter answers
    that the pair key was already tested, the pass ends in [continue]
    with [distance], [testCount], [totalTestsRun] and the filter (its
    identity and contents) unchanged; no filter is created and nothing is
    added or evaluated. *)
Theorem discarded_pass_keeps_state (m : Machine F) (step1 step2 : Z)
    (color1 color2 : option Color) (n2 : nat) :
  steps m = (step1, step2) ->
  draw m = (color1, color2, n2) ->
  emptyBucket colorsByLightness (lightnessValues !! step1)
  \/ emptyBucket colorsByLightness (lightnessValues !! step2)
  \/ color1 = None \/ color2 = None
  \/ (exists a b, color1 = Some a /\ color2 = Some b
        /\ BloomFilter_has (obj (testedCombinations (state m)))
             (createColorPairKey a b) = true) ->
  state (snd (body m)) = state m
  /\ created (snd (body m)) = created m
  /\ trace (snd (body m)) = trace m
  /\ (fst (body m) = NoColors \/ fst (body m) = AlreadyTested).
Proof.
  intros Hs Hd Hcase.
  assert (color1 = None \/ color2 = None
          \/ (exists a b, color1 = Some a /\ color2 = Some b
                /\ BloomFilter_has (obj (testedCombinations (state m)))
                     (createColorPairKey a b) = true)) as Hcase'.
  { destruct Hcase as [He|[He|[?|[?|?]]]]; auto;
      destruct (drawColors_emptyBucket m _ _ _ _ _ Hs Hd); auto. }
  destruct Hcase' as [Hn|[Hn|(a & b & -> & -> & Hh)]].
  - rewrite (loopBody_NoColors m _ _ _ Hd); auto.
  - rewrite (loopBody_NoColors m _ _ _ Hd); auto.
  - rewrite (loopBody_AlreadyTested m _ _ _ Hd Hh); auto.
Qed.

(** C5.  A contrast failure escalates the state within the pass:
    [distance] grows by exactly 1, [testCount] is 0, the filter is a new
    instance built like the initial one; and in any run no two
    evaluations made at different distances used the same filter
    instance. *)
Theorem contrast_failure_escalates (m : Machine F) (a b : Color)
    (n2 n : nat) :
  (draw m = (Some a, Some b, n2) ->
   BloomFilter_has (obj (testedCombinations (state m)))
     (createColorPairKey a b) = false ->
   Qlt_bool (wcagContrast_luminance (y a) (y b)) CONTRAST_MIN_RATIO = true ->
   fst (body m) = Failed
   /\ distance (state (snd (body m))) = (distance (state m) + 1)%Z
   /\ testCount (state (snd (body m))) = 0%Z
   /\ totalTestsRun (state (snd (body m))) = (totalTestsRun (state m) + 1)%Z
   /\ oid (testedCombinations (state (snd (body m)))) = created m
   /\ created (snd (body m)) = S (created m)
   /\ obj (testedCombinations (state (snd (body m))))
      = obj (testedCombinations (state (@initialMachine F _))))
  /\ (forall d1 f1 k1 d2 f2 k2,
        Evaluated d1 f1 k1 ∈ trace (iter n initialMachine) ->
        Evaluated d2 f2 k2 ∈ trace (iter n initialMachine) ->
        d1 <> d2 -> f1 <> f2).
Proof.
  split.
  - intros Hd Hh Hc. by rewrite (loopBody_Failed m a b n2 Hd Hh Hc).
  - intros d1 f1 k1 d2 f2 k2 H1 H2 Hne Heq.
    destruct (instanceInv_iterations n initialMachine instanceInv_initial)
      as (_ & _ & Hpair).
    apply Hne. by apply (Hpair d1 f1 k1 d2 f2 k2).
Qed.

(** C4.  With a filter that has no false negative, no (distance, pair
    key) reaches the contrast evaluator twice in a run; every evaluation
    comes right after the insertion of its key, and a pair whose key the
    filter reports is skipped with nothing evaluated. *)
Theorem no_pair_evaluated_twice `{!NoFalseNegative F} (n : nat)
    (m : Machine F) (a b : Color) (n2 : nat) :
  NoDup (evaluations (trace (iter n initialMachine)))
  /\ addedBeforeEvaluated (trace (iter n initialMachine))
  /\ (draw m = (Some a, Some b, n2) ->
      BloomFilter_has (obj (testedCombinations (state m)))
        (createColorPairKey a b) = true ->
      fst (body m) = AlreadyTested /\ trace (snd (body m)) = trace m).
Proof.
  destruct (seenInv_iterations n initialMachine seenInv_initial)
    as (_ & Hnd & Hord).
  split; [done|]. split; [done|].
  intros Hd Hh. by rewrite (loopBody_AlreadyTested m a b n2 Hd Hh).
Qed.

(** C1, as the code has it.  Once [distance] exceeds the scale (and the
    table has no entry above step 1000), every pass is discarded by the
    empty-bucket [continue]: the state never changes and the loop has not
    returned after any number of passes.  No failure is reported. *)
Theorem beyond_scale_every_pass_discarded (m : Machine F) (fuel : nat) :
  (forall i, (0 <= rnd i /\ rnd i < 1)%Q) ->
  (forall k, (LIGHTNESS_MAX_STEP < k)%Z -> lightnessValues !! k = None) ->
  (LIGHTNESS_MAX_STEP < distance (state m))%Z ->
  loopCondition m = true ->
  fst (body m) = NoColors
  /\ state (iter fuel m) = state m
  /\ trace (iter fuel m) = trace m
  /\ runFrom colorsByLightness lightnessValues rnd fuel m = None.
Proof.
  intros Hrnd Htable Hdist Hcond.
  destruct (iterations_beyond_scale fuel m Hrnd Htable Hdist)
    as (Hst & Htr & _).
  destruct (drawColors_beyond_scale m Hrnd Htable Hdist) as (c1 & n2 & Hd).
  split; [by rewrite (loopBody_NoColors m c1 None n2 Hd); auto|].
  split; [done|]. split; [done|].
  unfold runFrom, loopCondition in *. by rewrite Hst, Hcond.
Qed.

End LoopFacts.

(** *** The loop on the small catalog *)

Section ToyRuns.
Import Js Search.

(** Facts about a concrete run are settled by running it. *)
Ltac by_running := vm_compute; reflexivity.

Lemma rnd_unit (i : nat) : (0 <= Toy.rnd i /\ Toy.rnd i < 1)%Q.
Proof. unfold Toy.rnd. split; lra. Qed.

Lemma flatTable_beyond (k : Z) :
  (LIGHTNESS_MAX_STEP < k)%Z -> Toy.flatTable !! k = None.
Proof.
  unfold LIGHTNESS_MAX_STEP, Toy.flatTable. intros Hk.
  apply not_elem_of_list_to_map_1. rewrite <- list_fmap_compose.
  intros (s & -> & Hs)%list_elem_of_fmap.
  apply elem_of_seqZ in Hs. simpl in Hk. lia.
Qed.

Lemma discarded_pass_keeps_state_witness :
  state (snd (loopBody Toy.colorsByLightness Toy.lightnessValues Toy.rnd
                (Toy.run 2)))
  = state (Toy.run 2)
  /\ fst (loopBody Toy.colorsByLightness Toy.lightnessValues Toy.rnd
            (Toy.run 2)) = AlreadyTested.
Proof.
  destruct (discarded_pass_keeps_state Toy.colorsByLightness
              Toy.lightnessValues Toy.rnd (Toy.run 2) 214 786
              (Some Toy.c240) (Some Toy.c10) 9)
    as (Hstate & _ & _ & Hout).
  - by_running.
  - by_running.
  - do 4 right. exists Toy.c240, Toy.c10.
    split; [reflexivity|]. split; [reflexivity|]. by_running.
  - split; [exact Hstate|]. by_running.
Defined.

Lemma contrast_failure_escalates_witness :
  fst (loopBody Toy.colorsByLightness Toy.lightnessValues Toy.rnd
         (initialMachine (F := ExactSet))) = Failed
  /\ distance (state (Toy.run 1)) = 572%Z
  /\ testCount (state (Toy.run 1)) = 0%Z
  /\ testedCombinations (state (Toy.run 1)) = mkInstance 1%nat [].
Proof.
  destruct (contrast_failure_escalates Toy.colorsByLightness
              Toy.lightnessValues Toy.rnd (initialMachine (F := ExactSet))
              Toy.c50 Toy.c10 3 3) as [Hstep _].
  destruct Hstep as (Hout & _); [by_running..|].
  split; [exact Hout|].
  split; [by_running|]. split; by_running.
Defined.

Lemma no_pair_evaluated_twice_witness :
  NoDup (evaluations (trace (Toy.run 3)))
  /\ evaluations (trace (Toy.run 3))
     = [(572%Z, "10,10,10|240,240,240"); (571%Z, "10,10,10|50,50,50")]
  /\ fst (loopBody Toy.colorsByLightness Toy.lightnessValues Toy.rnd
            (Toy.run 2)) = AlreadyTested.
Proof.
  destruct (no_pair_evaluated_twice (F := ExactSet) Toy.colorsByLightness
              Toy.lightnessValues Toy.rnd 3 (Toy.run 2) Toy.c240 Toy.c10 9)
    as (Hnd & _ & Hskip).
  split; [exact Hnd|]. split; [by_running|].
  apply Hskip; by_running.
Defined.

Lemma beyond_scale_every_pass_discarded_witness :
  fst (loopBody Toy.colorsByLightness Toy.flatTable Toy.rnd
         (Toy.flatRun 430)) = NoColors
  /\ runFrom Toy.colorsByLightness Toy.flatTable Toy.rnd 25
       (Toy.flatRun 430) = None.
Proof.
  destruct (beyond_scale_every_pass_discarded Toy.colorsByLightness
              Toy.flatTable Toy.rnd (Toy.flatRun 430) 25)
    as (Hout & _ & _ & Hrun).
  - exact rnd_unit.
  - exact flatTable_beyond.
  - by_running.
  - by_running.
  - split; [exact Hout | exact Hrun].
Defined.

(** C1, refuted as stated.  On a catalog with one bucket and a table
    that sends every step to it, each test fails; after 430 passes the
    distance is 1001, the sampling interval is empty, and the search
    neither stops nor reports anything: it returns for no amount of
    fuel. *)
Lemma search_beyond_scale_counterexample :
  distance (state (Toy.flatRun 430)) = 1001%Z
  /\ loopCondition (Toy.flatRun 430) = true
  /\ fst (loopBody Toy.colorsByLightness Toy.flatTable Toy.rnd
            (Toy.flatRun 430)) = NoColors
  /\ ~ (exists fuel result,
          runContrastTests (F := ExactSet) Toy.colorsByLightness
            Toy.flatTable Toy.rnd fuel = Some result).
Proof.
  split; [by_running|]. split; [by_running|].
  split; [by_running|].
  intros (fuel & result & Hrun).
  rewrite (runContrastTests_beyond_scale Toy.colorsByLightness Toy.flatTable
             Toy.rnd 430 fuel rnd_unit flatTable_beyond) in Hrun.
  - discriminate Hrun.
  - by_running.
  - by_running.
Qed.

End ToyRuns.

(** ** The rounding of the database generator *)

Section CatalogRounding.
Import Js Catalog.

Lemma Qle_bool_false (a b : Q) : Qle_bool a b = false <-> (b < a)%Q.
Proof.
  split.
  - intros Hb. apply Qnot_le_lt. intros Hle.
    apply Qle_bool_iff in Hle. congruence.
  - intros Hlt. destruct (Qle_bool a b) eqn:Hb; [|done].
    apply Qle_bool_iff in Hb. by apply Qlt_not_le in Hlt.
Qed.

Lemma Qlt_bool_iff (a b : Q) : Qlt_bool a b = true <-> (a < b)%Q.
Proof.
  unfold Qlt_bool. rewrite negb_true_iff. apply Qle_bool_false.
Qed.

Lemma Math_round_bounds (x : Q) :
  (inject_Z (Math_round x) <= x + (1 # 2)
   /\ x + (1 # 2) < inject_Z (Math_round x) + 1)%Q.
Proof.
  unfold Math_round. split; [apply Qfloor_le|].
  pose proof (Qlt_floor (x + (1 # 2))) as Hlt.
  rewrite inject_Z_plus in Hlt. exact Hlt.
Qed.

Lemma Math_round_lt (x : Q) (z : Z) :
  (x + (1 # 2) < inject_Z z)%Q -> (Math_round x <= z - 1)%Z.
Proof.
  intros Hx. destruct (Math_round_bounds x) as [Hlo _].
  assert (inject_Z (Math_round x) < inject_Z z)%Q as Hz
    by (eapply Qle_lt_trans; eauto).
  rewrite <- Zlt_Qlt in Hz. lia.
Qed.

Lemma Math_round_ge (x : Q) (z : Z) :
  (inject_Z z <= x + (1 # 2))%Q -> (z <= Math_round x)%Z.
Proof.
  intros Hx. destruct (Math_round_bounds x) as [_ Hhi].
  assert (inject_Z z < inject_Z (Math_round x + 1))%Q as Hz
    by (rewrite inject_Z_plus; eapply Qle_lt_trans; eauto).
  rewrite <- Zlt_Qlt in Hz. lia.
Qed.

(** The three branches of [roundLightness]. *)
Lemma roundLightness_near_white (ok_l : Q) :
  (0.995 <= ok_l)%Q -> (ok_l < 1)%Q -> roundLightness ok_l = 0.99%Q.
Proof.
  intros Hlo Hhi. unfold roundLightness.
  apply Qle_bool_iff in Hlo. apply Qlt_bool_iff in Hhi.
  unfold LIGHTNESS_CAP_THRESHOLD, PURE_WHITE_LIGHTNESS.
  by rewrite Hlo, Hhi.
Qed.

Lemma roundLightness_white (ok_l : Q) :
  (1 <= ok_l)%Q -> roundLightness ok_l = 1%Q.
Proof.
  intros Hw. unfold roundLightness.
  assert (Qlt_bool ok_l PURE_WHITE_LIGHTNESS = false) as ->.
  { unfold Qlt_bool. apply negb_false_iff, Qle_bool_iff. exact Hw. }
  rewrite andb_false_r.
  assert (Qle_bool PURE_WHITE_LIGHTNESS ok_l = true) as ->
    by (apply Qle_bool_iff; exact Hw).
  done.
Qed.

Lemma roundLightness_below (ok_l : Q) :
  (ok_l < 0.995)%Q ->
  roundLightness ok_l
  = (inject_Z (Math_round (ok_l * 100)) / 100)%Q.
Proof.
  intros Hlt. unfold roundLightness.
  assert (Qle_bool LIGHTNESS_CAP_THRESHOLD ok_l = false) as ->
    by (apply Qle_bool_false; exact Hlt).
  assert (Qle_bool PURE_WHITE_LIGHTNESS ok_l = false) as ->.
  { apply Qle_bool_false. unfold PURE_WHITE_LIGHTNESS. lra. }
  done.
Qed.

Lemma Qdiv_100_le (p q : Z) :
  (p <= q)%Z -> (inject_Z p / 100 <= inject_Z q / 100)%Q.
Proof.
  intros Hpq. rewrite Zle_Qle in Hpq.
  apply Qle_shift_div_l; [lra|].
  field_simplify. lra.
Qed.

(** C10.  [roundLightness] keeps the pure-white bucket for white: a
    lightness in [0,1) is rounded to at most 0.99, the result is 1
    exactly when the input is at least 1, and inputs in [0,1] give
    results in [0,1]. *)
Theorem roundLightness_white_only_for_white (ok_l : Q) :
  ((0 <= ok_l -> ok_l < 1 -> roundLightness ok_l <= 0.99)
   /\ (roundLightness ok_l == 1 <-> 1 <= ok_l)
   /\ (0 <= ok_l -> ok_l <= 1 ->
       0 <= roundLightness ok_l /\ roundLightness ok_l <= 1))%Q.
Proof.
  assert (ok_l < 0.995 ->
          roundLightness ok_l <= 0.99
          /\ (0 <= ok_l -> 0 <= roundLightness ok_l))%Q as Hbelow.
  { intros Hlt. rewrite (roundLightness_below ok_l Hlt). split.
    - apply Qle_trans with (inject_Z 99 / 100)%Q; [|by compute].
      apply Qdiv_100_le, (Math_round_lt _ 100).
      change (inject_Z 100) with 100%Q. lra.
    - intros Hpos. apply Qle_trans with (inject_Z 0 / 100)%Q; [by compute|].
      apply Qdiv_100_le, Math_round_ge.
      change (inject_Z 0) with 0%Q. lra. }
  destruct (Qlt_le_dec ok_l 0.995) as [Hlt|Hge].
  - destruct (Hbelow Hlt) as [Hle Hpos].
    split; [auto|]. split; [|intros; split; [auto|lra]].
    split; [intros Heq; rewrite Heq in Hle; lra | intros; lra].
  - destruct (Qlt_le_dec ok_l 1) as [Hlt1|Hge1].
    + rewrite (roundLightness_near_white ok_l Hge Hlt1).
      split; [intros; lra|]. split; [split; intros; lra | intros; lra].
    + rewrite (roundLightness_white ok_l Hge1).
      split; [intros; lra|]. split; [split; intros; [lra|reflexivity]|].
      intros; split; [lra|]. apply Qle_refl.
Qed.

Lemma roundLightness_white_only_for_white_witness :
  (roundLightness 0.997 <= 0.99)%Q
  /\ (0 <= roundLightness 0.997 /\ roundLightness 0.997 <= 1)%Q.
Proof.
  destruct (roundLightness_white_only_for_white 0.997) as (Hnear & _ & Hunit).
  split; [apply Hnear; lra | apply Hunit; lra].
Defined.

End CatalogRounding.

(** ** The lightness table *)

Section LightnessTable.
Import Precompute.
Local Open Scope R_scope.

(** *** The contrast of a step *)

Lemma exp_le (x y : R) : x <= y -> exp x <= exp y.
Proof.
  intros [Hlt| ->]; [left; by apply exp_increasing | right; reflexivity].
Qed.

Lemma ln_21_pos : 0 < ln 21.
Proof. rewrite <- ln_1. apply ln_increasing; lra. Qed.

Lemma scaleToContrast_le (s1 s2 : R) :
  s1 <= s2 -> scaleToContrast s1 <= scaleToContrast s2.
Proof.
  intros Hs. unfold scaleToContrast, WCAG_MAX_CONTRAST, SCALE_MAX.
  apply exp_le. pose proof ln_21_pos. nra.
Qed.

Lemma scaleToContrast_0 : scaleToContrast 0 = 1.
Proof.
  unfold scaleToContrast. replace (ln _ * _) with 0; [apply exp_0|].
  unfold Rdiv. ring.
Qed.

Lemma scaleToContrast_1000 : scaleToContrast 1000 = 21.
Proof.
  unfold scaleToContrast, WCAG_MAX_CONTRAST, SCALE_MAX.
  replace (ln 21 * (1000 / 1000)) with (ln 21) by (field).
  apply exp_ln. lra.
Qed.

Lemma scaleToContrast_range (s : R) :
  0 <= s <= 1000 -> 1 <= scaleToContrast s <= 21.
Proof.
  intros [H0 H1].
  pose proof (scaleToContrast_le 0 s H0) as Hlo.
  pose proof (scaleToContrast_le s 1000 H1) as Hhi.
  rewrite scaleToContrast_0 in Hlo. rewrite scaleToContrast_1000 in Hhi.
  done.
Qed.

(** *** Cube roots *)

Lemma cube_lt (u v : R) : 0 <= u -> u < v -> u * u * u < v * v * v.
Proof.
  intros Hu Hlt.
  assert (0 < (v - u) * (v * v + u * v + u * u)) as Hprod
    by (apply Rmult_lt_0_compat; nra).
  nra.
Qed.

Lemma cube_le (u v : R) : 0 <= u -> 0 <= v -> u * u * u <= v * v * v -> u <= v.
Proof.
  intros Hu Hv Hle. destruct (Rle_lt_dec u v) as [|Hlt]; [done|exfalso].
  pose proof (cube_lt v u Hv Hlt). lra.
Qed.

Lemma cube_inj (u v : R) : 0 <= u -> 0 <= v -> u * u * u = v * v * v -> u = v.
Proof. intros Hu Hv Heq. apply Rle_antisym; apply cube_le; lra. Qed.

Lemma Math_cbrt_nonneg (x : R) : 0 <= x -> 0 <= Math_cbrt x.
Proof.
  intros Hx. unfold Math_cbrt.
  destruct (total_order_T 0 x) as [[Hlt|Heq]|Hgt]; [|lra|lra].
  left. apply exp_pos.
Qed.

Lemma Math_cbrt_cube (x : R) :
  0 <= x -> Math_cbrt x * Math_cbrt x * Math_cbrt x = x.
Proof.
  intros Hx. unfold Math_cbrt.
  destruct (total_order_T 0 x) as [[Hlt|Heq]|Hgt]; [|lra|lra].
  rewrite <- !exp_plus.
  replace (ln x / 3 + ln x / 3 + ln x / 3) with (ln x) by field.
  by apply exp_ln.
Qed.

Lemma Math_cbrt_unique (x u : R) : 0 <= u -> u * u * u = x -> Math_cbrt x = u.
Proof.
  intros Hu Hx.
  assert (0 <= x) by (rewrite <- Hx; nra).
  apply cube_inj; [by apply Math_cbrt_nonneg|done|].
  rewrite Math_cbrt_cube by done. lra.
Qed.

Lemma Math_cbrt_le (x1 x2 : R) :
  0 <= x1 -> x1 <= x2 -> Math_cbrt x1 <= Math_cbrt x2.
Proof.
  intros H1 H12.
  apply cube_le; [apply Math_cbrt_nonneg; lra..|].
  rewrite !Math_cbrt_cube by lra. done.
Qed.

Lemma Math_cbrt_mult (a x : R) :
  0 <= a -> 0 <= x -> Math_cbrt (a * x) = Math_cbrt a * Math_cbrt x.
Proof.
  intros Ha Hx. apply Math_cbrt_unique.
  - apply Rmult_le_pos; by apply Math_cbrt_nonneg.
  - transitivity ((Math_cbrt a * Math_cbrt a * Math_cbrt a)
                  * (Math_cbrt x * Math_cbrt x * Math_cbrt x)); [ring|].
    by rewrite !Math_cbrt_cube.
Qed.

Lemma Math_cbrt_between (x lo hi : R) :
  0 <= lo -> lo * lo * lo <= x -> x <= hi * hi * hi -> lo <= hi ->
  lo <= Math_cbrt x <= hi.
Proof.
  intros Hlo Hx1 Hx2 Hhi.
  assert (0 <= lo * lo * lo) by nra.
  split.
  - rewrite <- (Math_cbrt_unique (lo * lo * lo) lo) by done.
    by apply Math_cbrt_le.
  - rewrite <- (Math_cbrt_unique (hi * hi * hi) hi) by lra.
    apply Math_cbrt_le; lra.
Qed.

Lemma Rleb_true (a b : R) : a <= b -> Rleb a b = true.
Proof. intros Hab. unfold Rleb. by destruct (Rle_dec a b). Qed.

Lemma Rleb_false (a b : R) : b < a -> Rleb a b = false.
Proof. intros Hab. unfold Rleb. destruct (Rle_dec a b); [lra|done]. Qed.

Lemma Rltb_true (a b : R) : a < b -> Rltb a b = true.
Proof. intros Hab. unfold Rltb. by destruct (Rlt_dec a b). Qed.

(** *** The luminance that gives a contrast against white *)

Lemma reverseWCAGContrast_white (contrast : R) :
  1 <= contrast <= 21 ->
  reverseWCAGContrast contrast 1 = Ok (targetLuminance contrast).
Proof.
  intros [Hlo Hhi]. unfold reverseWCAGContrast, targetLuminance,
    WCAG_MAX_CONTRAST, WCAG_THRESHOLD, WCAG_LUMINANCE_OFFSET.
  rewrite !Rleb_true by lra. simpl.
  rewrite Rltb_true by lra. done.
Qed.

Lemma targetLuminance_nonneg (contrast : R) : 0 <= targetLuminance contrast.
Proof. unfold targetLuminance, Math_max. apply Rmax_l. Qed.

Lemma targetLuminance_le (c1 c2 : R) :
  1 <= c1 -> c1 <= c2 -> targetLuminance c2 <= targetLuminance c1.
Proof.
  intros H1 H12. unfold targetLuminance, Math_max, Math_min.
  assert ((1 + 0.05) / c2 <= (1 + 0.05) / c1) as Hdiv.
  { unfold Rdiv. apply Rmult_le_compat_l; [lra|].
    apply Rinv_le_contravar; lra. }
  apply Rmax_case_strong; apply Rmax_case_strong;
    repeat (apply Rmin_case_strong); intros; lra.
Qed.

(** *** From luminance to Oklab lightness *)

Lemma yToOklabLightness_scale (y : R) :
  0 <= y -> yToOklabLightness y = yToOklabLightness 1 * Math_cbrt y.
Proof.
  intros Hy. unfold yToOklabLightness, XYZ_TO_LMS_MATRIX, LMS_TO_OKLAB_MATRIX,
    D65_X_FACTOR, D65_Z_FACTOR, Math_max.
  set (la := 0.8189330101 * (0.3127 / 0.329) + 0.3618667424
             + - 0.1288597137 * ((1 - 0.3127 - 0.329) / 0.329)).
  set (ma := 0.0329845436 * (0.3127 / 0.329) + 0.9293118715
             + 0.0361456387 * ((1 - 0.3127 - 0.329) / 0.329)).
  set (sa := 0.0482003018 * (0.3127 / 0.329) + 0.2643662691
             + 0.633851707 * ((1 - 0.3127 - 0.329) / 0.329)).
  assert (0 <= la) as Hla by (unfold la; lra).
  assert (0 <= ma) as Hma by (unfold ma; lra).
  assert (0 <= sa) as Hsa by (unfold sa; lra).
  replace (0.8189330101 * (0.3127 / 0.329 * y) + 0.3618667424 * y
           + - 0.1288597137 * ((1 - 0.3127 - 0.329) / 0.329 * y))
    with (la * y) by (unfold la; ring).
  replace (0.0329845436 * (0.3127 / 0.329 * y) + 0.9293118715 * y
           + 0.0361456387 * ((1 - 0.3127 - 0.329) / 0.329 * y))
    with (ma * y) by (unfold ma; ring).
  replace (0.0482003018 * (0.3127 / 0.329 * y) + 0.2643662691 * y
           + 0.633851707 * ((1 - 0.3127 - 0.329) / 0.329 * y))
    with (sa * y) by (unfold sa; ring).
  replace (0.8189330101 * (0.3127 / 0.329 * 1) + 0.3618667424 * 1
           + - 0.1288597137 * ((1 - 0.3127 - 0.329) / 0.329 * 1))
    with la by (unfold la; ring).
  replace (0.0329845436 * (0.3127 / 0.329 * 1) + 0.9293118715 * 1
           + 0.0361456387 * ((1 - 0.3127 - 0.329) / 0.329 * 1))
    with ma by (unfold ma; ring).
  replace (0.0482003018 * (0.3127 / 0.329 * 1) + 0.2643662691 * 1
           + 0.633851707 * ((1 - 0.3127 - 0.329) / 0.329 * 1))
    with sa by (unfold sa; ring).
  rewrite !Rmax_right by nra.
  rewrite !Math_cbrt_mult by done.
  ring.
Qed.

(** White itself: the Oklab lightness of luminance 1 is just below 1. *)
Lemma yToOklabLightness_1_bounds :
  0.9999 <= yToOklabLightness 1 /\ yToOklabLightness 1 < 1.
Proof.
  unfold yToOklabLightness, XYZ_TO_LMS_MATRIX, LMS_TO_OKLAB_MATRIX,
    D65_X_FACTOR, D65_Z_FACTOR, Math_max.
  rewrite !Rmax_right by lra.
  match goal with
  | |- _ <= _ * Math_cbrt ?l + _ * Math_cbrt ?m + _ * Math_cbrt ?s /\ _ =>
      pose proof (Math_cbrt_between l 0.9999636 0.99996361) as Hl;
      pose proof (Math_cbrt_between m 1.00000897 1.00000898) as Hm;
      pose proof (Math_cbrt_between s 1.00015985 1.00015986) as Hs
  end.
  destruct Hl as [Hl1 Hl2]; [lra..|].
  destruct Hm as [Hm1 Hm2]; [lra..|].
  destruct Hs as [Hs1 Hs2]; [lra..|].
  split; lra.
Qed.

Lemma yToOklabLightness_1_nonneg : 0 <= yToOklabLightness 1.
Proof. destruct yToOklabLightness_1_bounds. lra. Qed.

Lemma yToOklabLightness_nonneg (y : R) : 0 <= y -> 0 <= yToOklabLightness y.
Proof.
  intros Hy. rewrite yToOklabLightness_scale by done.
  apply Rmult_le_pos; [apply yToOklabLightness_1_nonneg|].
  by apply Math_cbrt_nonneg.
Qed.

Lemma yToOklabLightness_le (y1 y2 : R) :
  0 <= y1 -> y1 <= y2 -> yToOklabLightness y1 <= yToOklabLightness y2.
Proof.
  intros H1 H12.
  rewrite (yToOklabLightness_scale y1), (yToOklabLightness_scale y2) by lra.
  apply Rmult_le_compat_l; [apply yToOklabLightness_1_nonneg|].
  by apply Math_cbrt_le.
Qed.

(** *** The toe *)

Lemma toe_le (L1 L2 : R) : 0 <= L1 -> L1 <= L2 -> toe L1 <= toe L2.
Proof.
  intros H1 H12. unfold toe.
  assert (0 < K3) as HK3 by (unfold K3; lra).
  assert (0 < K2) as HK2 by (unfold K2; lra).
  set (t1 := K3 * L1 - K1). set (t2 := K3 * L2 - K1).
  set (a1 := t1 * t1 + 4 * K2 * K3 * L1).
  set (a2 := t2 * t2 + 4 * K2 * K3 * L2).
  assert (0 < K2 * K3) as HK23 by (by apply Rmult_lt_0_compat).
  assert (0 <= 4 * K2 * K3 * L1) as Hc1 by nra.
  assert (0 <= 4 * K2 * K3 * (L2 - L1)) as Hc12 by nra.
  assert (0 <= a1) as Ha1 by (unfold a1; nra).
  assert (0 <= a2) as Ha2 by (unfold a2; nra).
  pose proof (sqrt_pos a1) as Hs1. pose proof (sqrt_pos a2) as Hs2.
  pose proof (sqrt_sqrt a1 Ha1) as Hq1. pose proof (sqrt_sqrt a2 Ha2) as Hq2.
  set (s1 := sqrt a1) in *. set (s2 := sqrt a2) in *.
  assert (0 <= t2 - t1) as Hd by (unfold t1, t2; nra).
  assert (0 <= t2 + s2) as Hts.
  { destruct (Rle_lt_dec 0 (t2 + s2)) as [|Hneg]; [done|exfalso].
    assert (s2 * s2 < t2 * t2) by nra. unfold a2 in Hq2. nra. }
  destruct (Rle_lt_dec (t1 + s1) (t2 + s2)) as [|Hgt]; [lra|exfalso].
  assert ((s2 + (t2 - t1)) * (s2 + (t2 - t1)) < s1 * s1) as Hsq by nra.
  unfold a1, a2 in *.
  assert (4 * K2 * K3 * L2 = 4 * K2 * K3 * L1 + 4 * K2 * K3 * (L2 - L1))
    as HL by ring.
  nra.
Qed.

Lemma toe_identity : K3 * (1 + K2) = 1 + K1.
Proof. unfold K1, K2, K3. field. lra. Qed.

Lemma toe_lt_1 (L : R) : 0 <= L -> L < 1 -> toe L < 1.
Proof.
  intros H0 H1. unfold toe.
  pose proof toe_identity as Hid.
  assert (0 < K3) as HK3 by (unfold K3; lra).
  assert (0 < K2) as HK2 by (unfold K2; lra).
  assert (0 <= K1) as HK1 by (unfold K1; lra).
  assert (0 < K2 * K3) as HK23 by (by apply Rmult_lt_0_compat).
  set (t := K3 * L - K1).
  set (a := t * t + 4 * K2 * K3 * L).
  assert (K3 * L * (1 + K2) < 1 + K1) as Hlt by (rewrite <- Hid; nra).
  assert (0 < 2 - t) as Ht by (unfold t; nra).
  assert (0 <= a) as Ha by (unfold a; nra).
  assert (a < (2 - t) * (2 - t)) as Hsq by (unfold a, t in *; nra).
  assert (sqrt a < 2 - t); [|lra].
  rewrite <- (sqrt_square (2 - t)) by lra.
  apply sqrt_lt_1; nra.
Qed.

Lemma toe_near_1 (L : R) : 0.996 <= L -> L <= 1 -> 0.995 <= toe L.
Proof.
  intros H0 H1. unfold toe.
  assert (K3 * 1.03 = 1.206) as HK3
    by (pose proof toe_identity as Hid; unfold K1, K2 in Hid; lra).
  set (t := K3 * L - K1).
  set (a := t * t + 4 * K2 * K3 * L).
  assert (0 <= 1.99 - t) as Ht by (unfold t, K1; nra).
  assert ((1.99 - t) * (1.99 - t) <= a) as Hsq
    by (unfold a, t, K1, K2 in *; nra).
  assert (1.99 - t <= sqrt a); [|lra].
  rewrite <- (sqrt_square (1.99 - t)) by lra.
  apply sqrt_le_1; nra.
Qed.

Lemma yToOkhslLightness_le (y1 y2 : R) :
  0 <= y1 -> y1 <= y2 -> yToOkhslLightness y1 <= yToOkhslLightness y2.
Proof.
  intros H1 H12. unfold yToOkhslLightness.
  apply toe_le; [by apply yToOklabLightness_nonneg|].
  by apply yToOklabLightness_le.
Qed.

(** *** Rounding to two decimals *)

Lemma roundedLightness_le (x1 x2 : R) :
  x1 <= x2 -> roundedLightness x1 <= roundedLightness x2.
Proof.
  intros H12. unfold roundedLightness, Math_round, LIGHTNESS_PRECISION.
  apply Rmult_le_compat_r; [lra|].
  apply IZR_le, Zfloor_le. lra.
Qed.

Lemma roundedLightness_near_white (raw : R) :
  0.995 <= raw -> raw < 1 -> roundedLightness raw = 1.
Proof.
  intros Hlo Hhi. unfold roundedLightness, Math_round, LIGHTNESS_PRECISION.
  rewrite (Zfloor_eq 100) by lra. field.
Qed.

Lemma step_in_scale (step : Z) :
  (0 <= step <= SCALE_MAX)%Z -> 0 <= IZR step <= 1000.
Proof.
  unfold SCALE_MAX. intros [H0 H1]. split.
  - by apply (IZR_le 0).
  - by apply (IZR_le step 1000).
Qed.

Lemma computeLightness_ok (step : Z) :
  (0 <= step <= SCALE_MAX)%Z ->
  computeLightness step
  = Ok (yToOkhslLightness (targetLuminance (scaleToContrast (IZR step)))).
Proof.
  intros Hs. unfold computeLightness.
  rewrite reverseWCAGContrast_white; [done|].
  by apply scaleToContrast_range, step_in_scale.
Qed.

Lemma computeLoop_ok (n : nat) (step : Z) (acc : gmap Z R) :
  (0 <= step)%Z -> (step + Z.of_nat n <= SCALE_MAX + 1)%Z ->
  exists tbl,
    computeLoop n step acc = Ok tbl
    /\ forall k,
         tbl !! k =
         if bool_decide (step <= k < step + Z.of_nat n)%Z
         then Some (tableEntry k) else acc !! k.
Proof.
  revert step acc. induction n as [|n IH]; intros step acc H0 Hn; simpl.
  - exists acc. split; [done|]. intros k.
    rewrite bool_decide_eq_false_2 by lia. done.
  - rewrite computeLightness_ok by lia. simpl.
    destruct (IH (step + 1)%Z
                (<[step := tableEntry step]> acc)) as (tbl & Hrun & Hget);
      [lia..|].
    exists tbl. split; [exact Hrun|]. intros k. rewrite Hget.
    destruct (decide (step = k)) as [->|Hne].
    + rewrite bool_decide_eq_false_2 by lia.
      rewrite bool_decide_eq_true_2 by lia. by rewrite lookup_insert_eq.
    + rewrite lookup_insert_ne by done.
      destruct (decide (step + 1 <= k < step + 1 + Z.of_nat n)%Z).
      * rewrite !bool_decide_eq_true_2 by lia. done.
      * rewrite !bool_decide_eq_false_2 by lia. done.
Qed.

Lemma computeAllLightnessValues_ok :
  exists tbl,
    computeAllLightnessValues = Ok tbl
    /\ forall k, (0 <= k <= SCALE_MAX)%Z -> tbl !! k = Some (tableEntry k).
Proof.
  unfold computeAllLightnessValues.
  destruct (computeLoop_ok (Z.to_nat (SCALE_MAX + 1)) 0 ∅)
    as (tbl & Hrun & Hget);
    [unfold SCALE_MAX; lia..|].
  exists tbl. split; [exact Hrun|]. intros k Hk. rewrite Hget.
  rewrite bool_decide_eq_true_2; [done|]. unfold SCALE_MAX in *. lia.
Qed.

Lemma tableEntry_le (s1 s2 : Z) :
  (0 <= s1)%Z -> (s1 <= s2)%Z -> (s2 <= SCALE_MAX)%Z ->
  tableEntry s2 <= tableEntry s1.
Proof.
  intros H0 H12 H2. unfold tableEntry.
  apply roundedLightness_le, yToOkhslLightness_le;
    [apply targetLuminance_nonneg|].
  apply targetLuminance_le.
  - apply scaleToContrast_range, step_in_scale. lia.
  - apply scaleToContrast_le. by apply IZR_le.
Qed.

(** C3.  The lightness table is built without an exception and is
    non-increasing in the step: for steps [s1 < s2] in [0,1000] the entry
    of [s2] is at most the entry of [s1]. *)
Theorem lightness_table_non_increasing (s1 s2 : Z) :
  (0 <= s1)%Z -> (s1 < s2)%Z -> (s2 <= SCALE_MAX)%Z ->
  exists tbl v1 v2,
    computeAllLightnessValues = Ok tbl
    /\ tbl !! s1 = Some v1 /\ tbl !! s2 = Some v2 /\ v2 <= v1.
Proof.
  intros H0 H12 H2.
  destruct computeAllLightnessValues_ok as (tbl & Hrun & Hget).
  exists tbl, (tableEntry s1), (tableEntry s2).
  split; [exact Hrun|]. split; [apply Hget; lia|]. split; [apply Hget; lia|].
  apply tableEntry_le; lia.
Qed.

Lemma lightness_table_non_increasing_witness :
  exists tbl v1 v2,
    computeAllLightnessValues = Ok tbl
    /\ tbl !! 0%Z = Some v1 /\ tbl !! 1000%Z = Some v2 /\ v2 <= v1.
Proof.
  apply (lightness_table_non_increasing 0 1000); unfold SCALE_MAX; lia.
Defined.

(** C6.  For every step in [0,1000] the interpolated contrast lies in
    [1,21] and the reference luminance 1 in [0,1], so
    [reverseWCAGContrast] returns (a luminance in [0,1]) instead of
    throwing, and so do [computeLightness] and the whole table
    construction. *)
Theorem table_construction_never_throws (step : Z) :
  (0 <= step)%Z -> (step <= SCALE_MAX)%Z ->
  1 <= scaleToContrast (IZR step) <= WCAG_MAX_CONTRAST
  /\ (exists y, reverseWCAGContrast (scaleToContrast (IZR step)) 1 = Ok y
                /\ 0 <= y <= 1)
  /\ (exists lightness, computeLightness step = Ok lightness)
  /\ (exists tbl, computeAllLightnessValues = Ok tbl).
Proof.
  intros H0 H1.
  assert (1 <= scaleToContrast (IZR step) <= 21) as Hc
    by (by apply scaleToContrast_range, step_in_scale).
  split; [exact Hc|]. split; [|split].
  - exists (targetLuminance (scaleToContrast (IZR step))).
    split; [by apply reverseWCAGContrast_white|].
    split; [apply targetLuminance_nonneg|].
    unfold targetLuminance, Math_max, Math_min.
    apply Rmax_lub; [lra|apply Rmin_l].
  - eexists. by apply computeLightness_ok.
  - destruct computeAllLightnessValues_ok as (tbl & Hrun & _). by exists tbl.
Qed.

Lemma table_construction_never_throws_witness :
  1 <= scaleToContrast (IZR 1000) <= WCAG_MAX_CONTRAST
  /\ (exists y, reverseWCAGContrast (scaleToContrast (IZR 1000)) 1 = Ok y
                /\ 0 <= y <= 1)
  /\ (exists lightness, computeLightness 1000 = Ok lightness)
  /\ (exists tbl, computeAllLightnessValues = Ok tbl).
Proof.
  apply (table_construction_never_throws 1000); unfold SCALE_MAX; lia.
Defined.

(** The guard is not idle: a contrast above 21 is refused. *)
Lemma reverseWCAGContrast_throws :
  reverseWCAGContrast 22 1 = Throw (InvalidContrast 22).
Proof.
  unfold reverseWCAGContrast, WCAG_MAX_CONTRAST.
  rewrite !Rleb_true by lra. rewrite Rleb_false by lra. done.
Qed.

Lemma targetLuminance_1 : targetLuminance 1 = 1.
Proof.
  unfold targetLuminance, Math_max, Math_min.
  replace ((1 + 0.05) / 1 - 0.05) with 1 by field.
  rewrite Rmin_left by lra. rewrite Rmax_right by lra. done.
Qed.

(** The raw lightness of step 0 (contrast 1 against white) lies in
    [0.995, 1.0). *)
Lemma step_0_raw_lightness :
  computeLightness 0 = Ok (yToOkhslLightness 1)
  /\ 0.995 <= yToOkhslLightness 1 /\ yToOkhslLightness 1 < 1.
Proof.
  destruct yToOklabLightness_1_bounds as [Hlo Hhi].
  split; [|split].
  - rewrite computeLightness_ok by (unfold SCALE_MAX; lia).
    by rewrite scaleToContrast_0, targetLuminance_1.
  - apply toe_near_1; lra.
  - apply toe_lt_1; lra.
Qed.

(** C2, refuted as stated.  The raw lightness of step 0 lies in
    [0.995, 1.0) and its table entry is 1.00, not 0.99. *)
Lemma table_rounding_counterexample :
  exists tbl raw,
    computeAllLightnessValues = Ok tbl
    /\ computeLightness 0 = Ok raw
    /\ 0.995 <= raw /\ raw < 1
    /\ tbl !! 0%Z = Some 1 /\ 1 <> 0.99.
Proof.
  destruct computeAllLightnessValues_ok as (tbl & Hrun & Hget).
  destruct step_0_raw_lightness as (Hraw & Hlo & Hhi).
  exists tbl, (yToOkhslLightness 1).
  split; [exact Hrun|]. split; [exact Hraw|].
  split; [exact Hlo|]. split; [exact Hhi|]. split; [|lra].
  rewrite Hget by (unfold SCALE_MAX; lia). unfold tableEntry.
  rewrite scaleToContrast_0, targetLuminance_1.
  by rewrite roundedLightness_near_white.
Qed.

(** C2, as the code has it.  The special case is that of the catalog
    generator: [roundLightness] gives 0.99 on [0.995, 1.0) and 1.00 from
    1.0 on.  The table builder only rounds to two decimals: a raw value
    in [0.995, 1.0) becomes 1.00. *)
Theorem rounding_special_case_is_in_catalog (ok_l : Q) (raw : R) :
  ((0.995 <= ok_l)%Q -> (ok_l < 1)%Q ->
     (Catalog.roundLightness ok_l == 0.99)%Q)
  /\ ((1 <= ok_l)%Q -> (Catalog.roundLightness ok_l == 1)%Q)
  /\ (0.995 <= raw -> raw < 1 -> roundedLightness raw = 1).
Proof.
  split; [|split].
  - intros Hlo Hhi. by rewrite (roundLightness_near_white ok_l Hlo Hhi).
  - intros Hw. by rewrite (roundLightness_white ok_l Hw).
  - apply roundedLightness_near_white.
Qed.

Lemma rounding_special_case_is_in_catalog_witness :
  (Catalog.roundLightness 0.997 == 0.99)%Q
  /\ roundedLightness 0.997 = 1.
Proof.
  destruct (rounding_special_case_is_in_catalog 0.997%Q 0.997)
    as (Hcat & _ & Htab).
  split; [apply Hcat; lra | apply Htab; lra].
Defined.

End LightnessTable.

(** ** The loading of the catalog *)

Section PartitionFacts.
Import Js Search Partition.

Lemma Qeq_bool_trans_l (a b c : Q) :
  Qeq_bool a b = true -> Qeq_bool a c = Qeq_bool b c.
Proof.
  intros Hab. apply Qeq_bool_iff in Hab.
  destruct (Qeq_bool b c) eqn:Hbc.
  - apply Qeq_bool_iff. apply Qeq_bool_iff in Hbc. by rewrite Hab.
  - destruct (Qeq_bool a c) eqn:Hac; [|done].
    apply Qeq_bool_iff in Hac. rewrite Hab in Hac.
    apply Qeq_bool_iff in Hac. congruence.
Qed.

Lemma Qeq_bool_trans_r (a b c : Q) :
  Qeq_bool b c = true -> Qeq_bool a b = Qeq_bool a c.
Proof.
  intros Hbc. rewrite (Qeq_bool_comm a b), (Qeq_bool_comm a c).
  by apply Qeq_bool_trans_l.
Qed.

Lemma Map_get_proper {V : Type} (m : Map V) (k l : Q) :
  Qeq_bool k l = true -> Map_get m k = Map_get m l.
Proof.
  intros Hkl. induction m as [|[k' v'] m IH]; simpl; [done|].
  rewrite (Qeq_bool_trans_r k' k l Hkl). by rewrite IH.
Qed.

Lemma Map_get_set {V : Type} (m : Map V) (k l : Q) (v : V) :
  Map_get (Map_set m k v) l
  = if Qeq_bool k l then Some v else Map_get m l.
Proof.
  induction m as [|[k' v'] m IH]; simpl; [done|].
  destruct (Qeq_bool k' k) eqn:Hk; simpl.
  - rewrite (Qeq_bool_trans_l k' k l Hk). by destruct (Qeq_bool k l).
  - rewrite IH. destruct (Qeq_bool k' l) eqn:Hl; [|done].
    destruct (Qeq_bool k l) eqn:Hkl; [|done].
    rewrite (Qeq_bool_trans_r k' k l Hkl) in Hk. congruence.
Qed.

Lemma distinctKeys_set {V : Type} (m : Map V) (k : Q) (v : V) :
  distinctKeys m -> distinctKeys (Map_set m k v).
Proof.
  induction m as [|[k' v'] m IH]; simpl; [done|].
  intros [Hhead Htail]. destruct (Qeq_bool k' k) eqn:Hk; simpl.
  - done.
  - split; [|by apply IH]. rewrite Map_get_set.
    by rewrite Qeq_bool_comm, Hk.
Qed.

Lemma Map_set_absent {V : Type} (m : Map V) (k : Q) (v : V) :
  Map_get m k = None -> Map_set m k v = m ++ [(k, v)].
Proof.
  induction m as [|[k' v'] m IH]; simpl; [done|].
  destruct (Qeq_bool k' k); [done|]. intros Hget. by rewrite IH.
Qed.

Lemma Map_set_twice {V : Type} (m : Map V) (k : Q) (v0 v : V) :
  Map_get m k = None -> Map_set (Map_set m k v0) k v = m ++ [(k, v)].
Proof.
  induction m as [|[k' v'] m IH]; simpl.
  - by rewrite Qeq_bool_refl.
  - destruct (Qeq_bool k' k) eqn:Hk; [done|]. intros Hget. simpl.
    by rewrite Hk, IH.
Qed.

Lemma Map_set_present (m : Map (list Color)) (k : Q) (b : list Color)
    (c : Color) :
  Map_get m k = Some b ->
  concat (Map_set m k (b ++ [c])).*2 ≡ₚ c :: concat m.*2.
Proof.
  induction m as [|[k' v'] m IH]; simpl; [done|].
  destruct (Qeq_bool k' k); simpl.
  - intros [= ->]. rewrite <- (assoc_L (++)). simpl.
    by rewrite <- Permutation_middle.
  - intros Hget. rewrite (IH Hget). by rewrite Permutation_middle.
Qed.

Lemma Map_set_elem {V : Type} (m : Map V) (k : Q) (v : V) (k1 : Q) (v1 : V) :
  (k1, v1) ∈ Map_set m k v -> (k1, v1) ∈ m \/ v1 = v.
Proof.
  induction m as [|[k' v'] m IH]; simpl.
  - rewrite list_elem_of_singleton. intros [= -> ->]. by right.
  - destruct (Qeq_bool k' k); rewrite !elem_of_cons.
    + intros [[= -> ->]|Hin]; [by right|by left; right].
    + intros [[= -> ->]|Hin]; [by left; left|].
      destruct (IH Hin); [by left; right|by right].
Qed.

(** What one row does to the map. *)
Lemma loadColor_get (m : Map (list Color)) (n : Z) (c : Color) (l : Q) :
  Map_get (fst (loadColor (m, n) c)) l
  = if Qeq_bool (rounded_ok_l c) l
    then Some (default [] (Map_get m (rounded_ok_l c)) ++ [c])
    else Map_get m l.
Proof.
  unfold loadColor, Map_has.
  destruct (Map_get m (rounded_ok_l c)) as [b|] eqn:Hget; simpl.
  - rewrite Hget. simpl. by rewrite Map_get_set.
  - rewrite (Map_get_set m (rounded_ok_l c) (rounded_ok_l c) []).
    rewrite Qeq_bool_refl. simpl. rewrite !Map_get_set.
    by destruct (Qeq_bool (rounded_ok_l c) l).
Qed.

Lemma loadColor_loaded (st : Map (list Color) * Z) (c : Color) :
  snd (loadColor st c) = (snd st + 1)%Z.
Proof. by destruct st. Qed.

Lemma loadColor_invariant (m : Map (list Color)) (n : Z) (c : Color) :
  distinctKeys m -> (forall k v, (k, v) ∈ m -> v <> []) ->
  distinctKeys (fst (loadColor (m, n) c))
  /\ (forall k v, (k, v) ∈ fst (loadColor (m, n) c) -> v <> [])
  /\ concat (fst (loadColor (m, n) c)).*2 ≡ₚ c :: concat m.*2.
Proof.
  intros Hkeys Hfull. unfold loadColor, Map_has.
  destruct (Map_get m (rounded_ok_l c)) as [b|] eqn:Hget; simpl.
  - rewrite Hget. simpl. split; [by apply distinctKeys_set|]. split.
    + intros k v [Hin| ->]%Map_set_elem; [by eapply Hfull|].
      by destruct b.
    + by apply Map_set_present.
  - rewrite (Map_get_set m (rounded_ok_l c) (rounded_ok_l c) []).
    rewrite Qeq_bool_refl. simpl.
    split; [by do 2 apply distinctKeys_set|].
    rewrite Map_set_twice by done. split.
    + intros k v [Hin|[= -> ->]%list_elem_of_singleton]%elem_of_app;
        [by eapply Hfull|done].
    + rewrite fmap_app, concat_app. simpl.
      by rewrite <- Permutation_cons_append.
Qed.

Lemma loadLoop_get (rows : list Color) (m : Map (list Color)) (n : Z)
    (l : Q) :
  Map_get (fst (fold_left loadColor rows (m, n))) l
  = match Map_get m l, rowsOf rows l with
    | None, [] => None
    | b, found => Some (default [] b ++ found)
    end.
Proof.
  revert m n. induction rows as [|c rows IH]; intros m n.
  - unfold rowsOf. simpl. destruct (Map_get m l); simpl; [|done].
    by rewrite app_nil_r.
  - change (fold_left loadColor (c :: rows) (m, n))
      with (fold_left loadColor rows (loadColor (m, n) c)).
    destruct (loadColor (m, n) c) as [m' n'] eqn:Hstep.
    rewrite IH. pose proof (loadColor_get m n c l) as Hget.
    rewrite Hstep in Hget. simpl in Hget. rewrite Hget.
    unfold rowsOf. rewrite filter_cons.
    destruct (decide (Qeq_bool (rounded_ok_l c) l = true)) as [Hl|Hl].
    + rewrite Hl. rewrite (Map_get_proper m _ _ Hl).
      fold (rowsOf rows l).
      destruct (Map_get m l) as [b|]; simpl.
      * rewrite <- (assoc_L (++)). simpl. by destruct (rowsOf rows l).
      * by destruct (rowsOf rows l).
    + apply not_true_is_false in Hl. rewrite Hl. done.
Qed.

Lemma loadLoop_invariant (rows : list Color) (m : Map (list Color)) (n : Z) :
  distinctKeys m -> (forall k v, (k, v) ∈ m -> v <> []) ->
  distinctKeys (fst (fold_left loadColor rows (m, n)))
  /\ (forall k v, (k, v) ∈ fst (fold_left loadColor rows (m, n)) -> v <> [])
  /\ concat (fst (fold_left loadColor rows (m, n))).*2
     ≡ₚ concat m.*2 ++ rows
  /\ snd (fold_left loadColor rows (m, n)) = (n + Z.of_nat (length rows))%Z.
Proof.
  revert m n. induction rows as [|c rows IH]; intros m n Hkeys Hfull.
  - simpl. rewrite app_nil_r. repeat split; [done..|lia].
  - change (fold_left loadColor (c :: rows) (m, n))
      with (fold_left loadColor rows (loadColor (m, n) c)).
    destruct (loadColor_invariant m n c Hkeys Hfull) as (Hk & Hf & Hp).
    pose proof (loadColor_loaded (m, n) c) as Hn.
    destruct (loadColor (m, n) c) as [m' n']. simpl in *.
    destruct (IH m' n' Hk Hf) as (Hk' & Hf' & Hp' & Hn').
    split; [done|]. split; [done|]. split; [|lia].
    rewrite Hp', Hp. simpl. apply Permutation_middle.
Qed.

Lemma loaded_bucket (rows : list Color) (lightness : Q)
    (colors : list Color) :
  Map_get (loadColorsIntoMemory rows) lightness = Some colors ->
  colors = rowsOf rows lightness /\ colors <> [].
Proof.
  unfold loadColorsIntoMemory, loadLoop. rewrite loadLoop_get. simpl.
  destruct (rowsOf rows lightness); [done|]. by intros [= <-].
Qed.

(** X1.  After [loadColorsIntoMemory] the map holds, for each lightness,
    the rows of that lightness in catalog order; a lightness that no
    row has is not a key of the map. *)
Theorem loadColorsIntoMemory_buckets (rows : list Color) (lightness : Q) :
  Map_get (loadColorsIntoMemory rows) lightness
  = match rowsOf rows lightness with
    | [] => None
    | found => Some found
    end.
Proof.
  unfold loadColorsIntoMemory, loadLoop. rewrite loadLoop_get. simpl.
  by destruct (rowsOf rows lightness).
Qed.

(** X2.  [loadColorsIntoMemory] partitions the catalog: the keys of the
    map are pairwise different, no bucket is empty, the buckets
    together hold each row once, and the counter [loaded] ends as the
    number of rows. *)
Theorem loadColorsIntoMemory_partition (rows : list Color) :
  distinctKeys (loadColorsIntoMemory rows)
  /\ (forall k v, (k, v) ∈ loadColorsIntoMemory rows -> v <> [])
  /\ concat (loadColorsIntoMemory rows).*2 ≡ₚ rows
  /\ snd (loadLoop rows) = Z.of_nat (length rows).
Proof.
  unfold loadColorsIntoMemory, loadLoop.
  destruct (loadLoop_invariant rows [] 0%Z) as (Hk & Hf & Hp & Hn);
    [done|by intros k v ?%elem_of_nil|].
  done.
Qed.

End PartitionFacts.

(** ** Draws *)

Section DrawFacts.
Import Js Search Partition.

(** [Math.floor(Math.random() * n)] is an index of an array of [n > 0]
    items. *)
Lemma randomIndex_range (u : Q) (n : Z) :
  (0 <= u)%Q -> (u < 1)%Q -> (0 < n)%Z ->
  (0 <= Math_floor (u * inject_Z n) < n)%Z.
Proof.
  intros H0 H1 Hn. unfold Math_floor.
  assert (0 < inject_Z n)%Q as HnQ
    by (change 0%Q with (inject_Z 0); by rewrite <- Zlt_Qlt).
  split.
  - rewrite <- (Qfloor_Z 0). apply Qfloor_resp_le.
    change (inject_Z 0) with 0%Q. nra.
  - assert (Qfloor (u * inject_Z n) < n)%Z; [|lia].
    rewrite Zlt_Qlt. eapply Qle_lt_trans; [apply Qfloor_le|]. nra.
Qed.

Lemma Array_get_in_range {A : Type} (a : list A) (i : Z) :
  (0 <= i < Z.of_nat (length a))%Z ->
  exists x, Array_get a i = Some x /\ x ∈ a.
Proof.
  intros Hi. unfold Array_get.
  destruct (Z.ltb_spec i 0) as [|_]; [lia|].
  destruct (lookup_lt_is_Some_2 a (Z.to_nat i)) as [x Hx]; [lia|].
  exists x. split; [done|]. by eapply list_elem_of_lookup_2.
Qed.

(** X3.  With [Math.random()] in [0,1), a draw from a bucket that has
    colours gives one of them and uses one random number; without a
    lightness, without a bucket, or from an empty bucket, the draw
    gives [null] and uses none. *)
Theorem getRandomColorWithLightness_draws
    (colorsByLightness : Map (list Color)) (lightness : option Q)
    (rnd : nat -> Q) (n : nat) :
  (0 <= rnd n)%Q -> (rnd n < 1)%Q ->
  match lightness ≫= Map_get colorsByLightness with
  | Some (c0 :: colors) =>
      exists c,
        getRandomColorWithLightness colorsByLightness lightness rnd n
        = (Some c, S n)
        /\ c ∈ c0 :: colors
  | _ =>
      getRandomColorWithLightness colorsByLightness lightness rnd n
      = (None, n)
  end.
Proof.
  intros H0 H1. unfold getRandomColorWithLightness.
  destruct lightness as [l|]; [|done]. cbn [mbind option_bind].
  destruct (Map_get colorsByLightness l) as [bucket|]; [|done].
  destruct bucket as [|c0 colors] eqn:Hbucket; [done|]. rewrite <- Hbucket.
  assert (0 < Z.of_nat (length bucket))%Z as Hlen by (subst; simpl; lia).
  destruct (Z.eqb_spec (Z.of_nat (length bucket)) 0) as [|_]; [lia|].
  destruct (Array_get_in_range bucket
              (Math_floor (rnd n * inject_Z (Z.of_nat (length bucket)))))
    as (c & Hget & Hin); [by apply randomIndex_range|].
  exists c. by rewrite Hget.
Qed.

(** X4.  Whatever the random source, a colour drawn from the loaded
    catalog is a row of the catalog and has the lightness asked for. *)
Theorem draw_from_loaded_catalog (rows : list Color) (lightness : Q)
    (rnd : nat -> Q) (n : nat) (c : Color) :
  fst (getRandomColorWithLightness (loadColorsIntoMemory rows)
         (Some lightness) rnd n) = Some c ->
  c ∈ rows /\ (rounded_ok_l c == lightness)%Q.
Proof.
  unfold getRandomColorWithLightness.
  destruct (Map_get (loadColorsIntoMemory rows) lightness) as [colors|]
    eqn:Hbucket; [|done].
  apply loaded_bucket in Hbucket as [-> _].
  destruct (Z.of_nat (length (rowsOf rows lightness)) =? 0)%Z; [done|].
  simpl. unfold Array_get. case_match; [done|].
  intros Hget%list_elem_of_lookup_2.
  apply list_elem_of_filter in Hget as [Hl Hin].
  split; [done|]. by apply Qeq_bool_iff.
Qed.

End DrawFacts.

(** ** Colour codes and the counters of the search *)

Section PairCodes.
Import Js Search.

(** X5.  On channels in [0,255] the integer code of a colour is a 24-bit
    number, and it orders the colours lexicographically by (r, g, b). *)
Theorem rgbToNumericValue_lexicographic (A B : Color) :
  channels_ok A -> channels_ok B ->
  (0 <= rgbToNumericValue A <= 16777215)%Z
  /\ ((rgbToNumericValue A < rgbToNumericValue B)%Z
      <-> (r A < r B)%Z
          \/ (r A = r B /\ ((g A < g B)%Z \/ (g A = g B /\ (b A < b B)%Z)))).
Proof.
  unfold channels_ok, rgbToNumericValue, RGB_MULTIPLIERS_RED,
    RGB_MULTIPLIERS_GREEN, RGB_MULTIPLIERS_BLUE.
  intros (? & ? & ?) (? & ? & ?). split; [lia|]. split; [lia|].
  intros [?|[-> [?|[-> ?]]]]; lia.
Qed.

End PairCodes.

Section CounterFacts.
Import Js Search SearchCounters.
Context {F : Type} `{BloomFilter F}.
Variable colorsByLightness : Map (list Color).
Variable lightnessValues : gmap Z Q.
Variable rnd : nat -> Q.

Local Abbreviation body := (loopBody colorsByLightness lightnessValues rnd).
Local Abbreviation draw := (drawColors colorsByLightness lightnessValues rnd).
Local Abbreviation iter := (iterations colorsByLightness lightnessValues rnd).

Lemma countersInv_initial : countersInv (initialMachine (F := F)).
Proof.
  unfold countersInv, initialMachine, evaluationsAt; simpl.
  split; [done|]. split; [done|]. split; [by intros e ?%elem_of_nil|].
  split; [done|]. split; [done|]. by compute.
Qed.

Lemma evaluationsAt_beyond (d : Z) (t : list Event) :
  (forall e, e ∈ evaluations t -> (e.1 < d)%Z) -> evaluationsAt d t = [].
Proof.
  unfold evaluationsAt. generalize (evaluations t). intros evs.
  induction evs as [|e evs IH]; intros Hlt; [done|].
  rewrite filter_cons. destruct (decide (e.1 = d)) as [He|_].
  - assert (e.1 < d)%Z by (apply Hlt; left). lia.
  - apply IH. intros e' He'. apply Hlt. by right.
Qed.

Lemma evaluationsAt_tested (d : Z) (f : nat) (k : string) (t : list Event) :
  evaluationsAt d (Evaluated d f k :: Added f k :: t)
  = (d, k) :: evaluationsAt d t.
Proof. unfold evaluationsAt. simpl. by rewrite filter_cons_True. Qed.

Lemma countersInv_step (m : Machine F) :
  loopCondition m = true -> countersInv m -> countersInv (snd (body m)).
Proof.
  unfold loopCondition. intros Hcond%Z.ltb_lt.
  intros (Htotal & Hcount & Hle & Hdist & Hoid & Hmax).
  destruct (loopBody_cases colorsByLightness lightnessValues rnd m)
    as [[n2 ->]|[[n2 ->]|(a & b & n2 & Hd & Hh & Hc)]];
    [done | done |].
  assert (forall e,
            e ∈ evaluations
                  (Evaluated (distance (state m))
                     (oid (testedCombinations (state m)))
                     (createColorPairKey a b)
                   :: Added (oid (testedCombinations (state m)))
                        (createColorPairKey a b) :: trace m) ->
            (e.1 <= distance (state m))%Z) as Hle'.
  { simpl. intros e [->|He]%elem_of_cons; [done|]. by apply Hle. }
  destruct Hc as [Hc|Hc];
    [rewrite (loopBody_Failed _ _ _ m a b n2 Hd Hh Hc)
    |rewrite (loopBody_Passed _ _ _ m a b n2 Hd Hh Hc)];
    unfold countersInv;
    cbn [snd state trace created distance testCount totalTestsRun
         testedCombinations oid].
  - rewrite evaluationsAt_beyond
      by (intros e He; specialize (Hle' e He); lia).
    split; [simpl; lia|]. split; [done|].
    split; [intros e He; specialize (Hle' e He); lia|].
    split; [lia|]. split; [done|]. by compute.
  - rewrite evaluationsAt_tested.
    split; [simpl; lia|]. split; [simpl; lia|]. split; [done|].
    split; [done|]. split; [done|]. lia.
Qed.

Lemma countersInv_iterations (n : nat) (m : Machine F) :
  countersInv m -> countersInv (iter n m).
Proof.
  revert m. induction n as [|n IH]; intros m Hm; simpl; [done|].
  destruct (loopCondition m) eqn:Hcond; [|done].
  by apply IH, countersInv_step.
Qed.

(** X6.  While the distance is within the scale and [Math.random()] in
    [0,1), the two steps drawn lie on the scale, [distance] apart: [0
    <= step1 <= 1000 - distance] and [step2 = step1 + distance <=
    1000]. *)
Theorem drawSteps_in_scale (m : Machine F) :
  (0 <= rnd (randoms m))%Q -> (rnd (randoms m) < 1)%Q ->
  (0 <= distance (state m) <= LIGHTNESS_MAX_STEP)%Z ->
  let (step1, step2) := drawSteps rnd m in
  (0 <= step1 <= LIGHTNESS_MAX_STEP - distance (state m))%Z
  /\ step2 = (step1 + distance (state m))%Z
  /\ (distance (state m) <= step2 <= LIGHTNESS_MAX_STEP)%Z.
Proof.
  intros H0 H1 [Hd0 Hd1]. unfold drawSteps. cbv zeta.
  pose proof (randomIndex_range (rnd (randoms m))
                (LIGHTNESS_MAX_STEP + 1 - distance (state m)) H0 H1) as Hi.
  split; [lia|]. split; [done|]. lia.
Qed.

(** X7.  After any number of passes of the loop: [totalTestsRun] is the
    number of contrast evaluations made, [testCount] is the number
    made at the current distance and exceeds neither [TEST_MAX_TESTS]
    nor [totalTestsRun]; the distance is 571 plus the number of
    filters made after the first, so it never goes below 571. *)
Theorem search_counters (n : nat) :
  let m := iter n initialMachine in
  totalTestsRun (state m) = Z.of_nat (length (evaluations (trace m)))
  /\ testCount (state m)
     = Z.of_nat (length (evaluationsAt (distance (state m)) (trace m)))
  /\ (0 <= testCount (state m) <= TEST_MAX_TESTS)%Z
  /\ (testCount (state m) <= totalTestsRun (state m))%Z
  /\ distance (state m)
     = (CONTRAST_INITIAL_DISTANCE + Z.of_nat (created m) - 1)%Z
  /\ (CONTRAST_INITIAL_DISTANCE <= distance (state m))%Z.
Proof.
  destruct (countersInv_iterations n initialMachine countersInv_initial)
    as (Htotal & Hcount & Hle & Hdist & Hoid & Hmax).
  simpl. split; [done|]. split; [done|]. split; [lia|]. split; [|lia].
  rewrite Htotal, Hcount. apply inj_le. unfold evaluationsAt.
  apply length_filter.
Qed.

(** X8.  Whenever the search returns, it returns the current distance and
    the total number of evaluations, and exactly [TEST_MAX_TESTS]
    evaluations were made at that distance. *)
Theorem runContrastTests_reports (fuel : nat) :
  match runContrastTests colorsByLightness lightnessValues rnd fuel with
  | None => True
  | Some (d, total) =>
      let m := iter fuel initialMachine in
      d = distance (state m)
      /\ (CONTRAST_INITIAL_DISTANCE <= d)%Z
      /\ Z.of_nat (length (evaluationsAt d (trace m))) = TEST_MAX_TESTS
      /\ total = Z.of_nat (length (evaluations (trace m)))
      /\ (TEST_MAX_TESTS <= total)%Z
  end.
Proof.
  destruct (countersInv_iterations fuel initialMachine countersInv_initial)
    as (Htotal & Hcount & Hle & Hdist & Hoid & Hmax).
  unfold runContrastTests, runFrom.
  destruct (loopCondition _) eqn:Hcond; [done|].
  unfold loopCondition in Hcond. apply Z.ltb_ge in Hcond.
  assert (testCount (state (iter fuel initialMachine)) = TEST_MAX_TESTS)
    as Hfull by lia.
  assert (Z.of_nat (length (evaluationsAt
                              (distance (state (iter fuel initialMachine)))
                              (trace (iter fuel initialMachine))))
          <= Z.of_nat (length (evaluations
                                 (trace (iter fuel initialMachine)))))%Z
    as Hsub by (apply inj_le; unfold evaluationsAt; apply length_filter).
  simpl. split; [done|]. split; [lia|]. split; [lia|]. split; [done|]. lia.
Qed.

(** X9.  A test that passes counts once in [testCount] and in
    [totalTestsRun] and keeps the distance and the filter object; when
    a later pass, from the state it leaves, draws the same two colours
    in either order, the pass is discarded as already tested and the
    state stays as it is. *)
Theorem passed_pair_is_skipped `{!NoFalseNegative F} (m m' : Machine F)
    (a b a' b' : Color) (n2 n2' : nat) :
  draw m = (Some a, Some b, n2) ->
  BloomFilter_has (obj (testedCombinations (state m)))
    (createColorPairKey a b) = false ->
  Qlt_bool (wcagContrast_luminance (y a) (y b)) CONTRAST_MIN_RATIO = false ->
  state m' = state (snd (body m)) ->
  draw m' = (Some a', Some b', n2') ->
  channels_ok a -> channels_ok b -> channels_ok a' -> channels_ok b' ->
  (rgb a' = rgb a /\ rgb b' = rgb b) \/ (rgb a' = rgb b /\ rgb b' = rgb a) ->
  fst (body m) = Passed
  /\ distance (state (snd (body m))) = distance (state m)
  /\ testCount (state (snd (body m))) = (testCount (state m) + 1)%Z
  /\ totalTestsRun (state (snd (body m))) = (totalTestsRun (state m) + 1)%Z
  /\ oid (testedCombinations (state (snd (body m))))
     = oid (testedCombinations (state m))
  /\ fst (body m') = AlreadyTested
  /\ state (snd (body m')) = state m'.
Proof.
  intros Hd Hh Hc Hstate Hd' Ha Hb Ha' Hb' Hsame.
  rewrite (loopBody_Passed _ _ _ m a b n2 Hd Hh Hc) in *. simpl in *.
  repeat (split; [done|]).
  assert (createColorPairKey a' b' = createColorPairKey a b) as Hkey.
  { destruct Hsame as [[? ?]|[? ?]];
      [by apply createColorPairKey_rgb|by apply createColorPairKey_cross]. }
  rewrite (loopBody_AlreadyTested _ _ _ m' a' b' n2' Hd'); [done|].
  rewrite Hstate, Hkey. simpl. apply has_add_same.
Qed.

End CounterFacts.

(** ** More runs of the small catalog *)

Section MoreToyRuns.
Import Js Search Partition SearchCounters.

Ltac by_running := vm_compute; reflexivity.

Lemma loadColorsIntoMemory_partition_witness :
  concat (loadColorsIntoMemory [Toy.c240; Toy.c128; Toy.c130; Toy.c10]).*2
  ≡ₚ [Toy.c240; Toy.c128; Toy.c130; Toy.c10]
  /\ snd (loadLoop [Toy.c240; Toy.c128; Toy.c130; Toy.c10]) = 4%Z.
Proof.
  destruct (loadColorsIntoMemory_partition
              [Toy.c240; Toy.c128; Toy.c130; Toy.c10])
    as (_ & _ & Hperm & Hcount).
  split; [exact Hperm | exact Hcount].
Defined.

Lemma getRandomColorWithLightness_draws_witness :
  exists c,
    getRandomColorWithLightness Toy.colorsByLightness (Some 0.5%Q) Toy.rnd 0
    = (Some c, 1%nat)
    /\ c ∈ [Toy.c128; Toy.c130].
Proof.
  apply (getRandomColorWithLightness_draws Toy.colorsByLightness
           (Some 0.5%Q) Toy.rnd 0); unfold Toy.rnd; lra.
Defined.

Lemma draw_from_loaded_catalog_witness :
  Toy.c130 ∈ [Toy.c240; Toy.c128; Toy.c130; Toy.c10]
  /\ (rounded_ok_l Toy.c130 == 0.5)%Q.
Proof.
  apply (draw_from_loaded_catalog [Toy.c240; Toy.c128; Toy.c130; Toy.c10]
           0.5%Q Toy.rnd 0 Toy.c130).
  by_running.
Defined.

Lemma rgbToNumericValue_lexicographic_witness :
  (0 <= rgbToNumericValue Toy.c128 <= 16777215)%Z
  /\ ((rgbToNumericValue Toy.c128 < rgbToNumericValue Toy.c130)%Z
      <-> (r Toy.c128 < r Toy.c130)%Z
          \/ (r Toy.c128 = r Toy.c130
              /\ ((g Toy.c128 < g Toy.c130)%Z
                  \/ (g Toy.c128 = g Toy.c130
                      /\ (b Toy.c128 < b Toy.c130)%Z)))).
Proof.
  apply (rgbToNumericValue_lexicographic Toy.c128 Toy.c130);
    unfold channels_ok; simpl; lia.
Defined.

Lemma drawSteps_in_scale_witness :
  let (step1, step2) := drawSteps Toy.rnd (initialMachine (F := ExactSet)) in
  (0 <= step1
   <= LIGHTNESS_MAX_STEP - distance (state (initialMachine (F := ExactSet))))%Z
  /\ step2
     = (step1 + distance (state (initialMachine (F := ExactSet))))%Z
  /\ (distance (state (initialMachine (F := ExactSet))) <= step2
      <= LIGHTNESS_MAX_STEP)%Z.
Proof.
  apply (drawSteps_in_scale (F := ExactSet) Toy.rnd initialMachine).
  - unfold Toy.rnd. lra.
  - unfold Toy.rnd. lra.
  - vm_compute. split; discriminate.
Defined.

Lemma passed_pair_is_skipped_witness :
  fst (loopBody Toy.colorsByLightness Toy.lightnessValues Toy.rnd
         (Toy.run 1)) = Passed
  /\ fst (loopBody Toy.colorsByLightness Toy.lightnessValues Toy.rnd
            (Toy.run 2)) = AlreadyTested
  /\ state (snd (loopBody Toy.colorsByLightness Toy.lightnessValues Toy.rnd
                   (Toy.run 2)))
     = state (Toy.run 2).
Proof.
  destruct (passed_pair_is_skipped (F := ExactSet) Toy.colorsByLightness
              Toy.lightnessValues Toy.rnd (Toy.run 1) (Toy.run 2)
              Toy.c240 Toy.c10 Toy.c240 Toy.c10 6 9)
    as (Hpass & _ & _ & _ & _ & Hskip & Hstate).
  - by_running.
  - by_running.
  - by_running.
  - by_running.
  - by_running.
  - unfold channels_ok; simpl; lia.
  - unfold channels_ok; simpl; lia.
  - unfold channels_ok; simpl; lia.
  - unfold channels_ok; simpl; lia.
  - left. split; reflexivity.
  - split; [exact Hpass|]. split; [exact Hskip | exact Hstate].
Defined.

End MoreToyRuns.

(** ** More on the rounding of the database generator *)

Section MoreCatalogRounding.
Import Js Catalog.

Lemma Math_round_le (x1 x2 : Q) :
  (x1 <= x2)%Q -> (Math_round x1 <= Math_round x2)%Z.
Proof. intros H12. unfold Math_round. apply Qfloor_resp_le. lra. Qed.

Lemma Math_round_integer (k : Z) (x : Q) :
  (x == inject_Z k)%Q -> Math_round x = k.
Proof.
  intros Hx.
  assert (k <= Math_round x)%Z by (apply Math_round_ge; lra).
  assert (Math_round x <= k + 1 - 1)%Z; [|lia].
  apply Math_round_lt. rewrite inject_Z_plus. change (inject_Z 1) with 1%Q.
  lra.
Qed.

Lemma roundLightness_cases (ok_l : Q) :
  ((ok_l < 0.995)%Q
   /\ roundLightness ok_l
      = (inject_Z (Math_round (ok_l * 100)) / 100)%Q
   /\ (Math_round (ok_l * 100) <= 99)%Z)
  \/ ((0.995 <= ok_l)%Q /\ (ok_l < 1)%Q /\ roundLightness ok_l = 0.99%Q)
  \/ ((1 <= ok_l)%Q /\ roundLightness ok_l = 1%Q).
Proof.
  destruct (Qlt_le_dec ok_l 0.995) as [Hlt|Hge].
  - left. split; [done|]. split; [by apply roundLightness_below|].
    apply (Math_round_lt _ 100). change (inject_Z 100) with 100%Q. lra.
  - destruct (Qlt_le_dec ok_l 1) as [Hlt1|Hge1].
    + right; left. split; [done|]. split; [done|].
      by apply roundLightness_near_white.
    + right; right. split; [done|]. by apply roundLightness_white.
Qed.

(** X10.  [roundLightness] is monotone: a lighter colour never gets a
    darker bucket. *)
Theorem roundLightness_monotone (x1 x2 : Q) :
  (x1 <= x2)%Q -> (roundLightness x1 <= roundLightness x2)%Q.
Proof.
  intros H12.
  destruct (roundLightness_cases x1) as [(H1 & -> & Hk1)|[(H1 & H1' & ->)|(H1 & ->)]];
    destruct (roundLightness_cases x2) as [(H2 & -> & Hk2)|[(H2 & H2' & ->)|(H2 & ->)]];
    try lra.
  - apply Qdiv_100_le, Math_round_le. lra.
  - apply Qle_trans with (inject_Z 99 / 100)%Q; [|by compute].
    by apply Qdiv_100_le.
  - apply Qle_trans with (inject_Z 99 / 100)%Q; [|by compute].
    by apply Qdiv_100_le.
Qed.

(** X11.  [roundLightness] gives a whole number of hundredths; for a
    lightness in [0,1) it is one of 0.00 to 0.99 and less than 0.01 away
    from its argument.  (The bound leaves the margin that binary64
    needs: the code can round a value just below a tie upwards.) *)
Theorem roundLightness_hundredths (ok_l : Q) :
  (exists k : Z, (roundLightness ok_l == inject_Z k / 100)%Q)
  /\ ((0 <= ok_l)%Q -> (ok_l < 1)%Q ->
      exists k : Z,
        (0 <= k <= 99)%Z
        /\ (roundLightness ok_l == inject_Z k / 100)%Q
        /\ (ok_l - (1 # 100) < roundLightness ok_l)%Q
        /\ (roundLightness ok_l < ok_l + (1 # 100))%Q).
Proof.
  split.
  - destruct (roundLightness_cases ok_l)
      as [(H1 & -> & Hk1)|[(H1 & H1' & ->)|(H1 & ->)]].
    + by eexists.
    + exists 99%Z. by compute.
    + exists 100%Z. by compute.
  - intros H0 Hlt1.
    destruct (roundLightness_cases ok_l)
      as [(H1 & -> & Hk1)|[(H1 & H1' & ->)|(H1 & _)]]; [| |lra].
    + exists (Math_round (ok_l * 100)).
      assert (0 <= Math_round (ok_l * 100))%Z as Hk0.
      { apply Math_round_ge. change (inject_Z 0) with 0%Q. lra. }
      split; [lia|]. split; [reflexivity|].
      destruct (Math_round_bounds (ok_l * 100)) as [Hlo Hhi].
      set (z := inject_Z (Math_round (ok_l * 100))) in *. clearbody z.
      split.
      * apply Qlt_shift_div_l; [lra|]. lra.
      * apply Qlt_shift_div_r; [lra|]. lra.
    + exists 99%Z. split; [lia|]. split; [by compute|]. split; lra.
Qed.

(** X12.  [roundLightness] is idempotent: a bucket value is its own
    bucket. *)
Theorem roundLightness_idempotent (ok_l : Q) :
  (roundLightness (roundLightness ok_l) == roundLightness ok_l)%Q.
Proof.
  destruct (roundLightness_cases ok_l)
    as [(H1 & -> & Hk)|[(H1 & H1' & ->)|(H1 & ->)]]; [|by compute..].
  set (k := Math_round (ok_l * 100)) in *.
  assert (inject_Z k / 100 <= inject_Z 99 / 100)%Q as Hle
    by (by apply Qdiv_100_le).
  rewrite roundLightness_below
    by (eapply Qle_lt_trans; [exact Hle|by compute]).
  rewrite (Math_round_integer k); [reflexivity|]. field.
Qed.

Lemma roundLightness_monotone_witness :
  (roundLightness 0.994 <= roundLightness 0.996)%Q.
Proof. apply (roundLightness_monotone 0.994 0.996). lra. Defined.

Lemma roundLightness_hundredths_witness :
  exists k : Z,
    (0 <= k <= 99)%Z
    /\ (roundLightness 0.015 == inject_Z k / 100)%Q
    /\ (0.015 - (1 # 100) < roundLightness 0.015)%Q
    /\ (roundLightness 0.015 < 0.015 + (1 # 100))%Q.
Proof.
  destruct (roundLightness_hundredths 0.015) as (_ & H). apply H; lra.
Defined.

End MoreCatalogRounding.

(** ** The rows and the batches of the database generator *)

Section LoopFolds.
Import Generator.
Local Open Scope Z_scope.

Lemma forLoop_fold {S : Type} (body : S -> Z -> S) (st : S) (i : Z)
    (n : nat) :
  forLoop body st i n = fold_left body (seqZ i (Z.of_nat n)) st.
Proof.
  revert st i. induction n as [|n IH]; intros st i; [done|].
  rewrite seqZ_cons by lia. cbn [forLoop fold_left]. rewrite IH.
  do 2 f_equal; lia.
Qed.

Lemma fold_left_ext_in {A B : Type} (f g : A -> B -> A) (l : list B)
    (st : A) :
  (forall st x, x ∈ l -> f st x = g st x) ->
  fold_left f l st = fold_left g l st.
Proof.
  revert st. induction l as [|x l IH]; intros st Hfg; [done|].
  cbn [fold_left]. rewrite Hfg by left. apply IH.
  intros st' y Hy. apply Hfg. by right.
Qed.

Lemma fold_left_fmap {A B C : Type} (f : A -> C -> A) (h : B -> C)
    (l : list B) (st : A) :
  fold_left f (h <$> l) st = fold_left (fun st x => f st (h x)) l st.
Proof. revert st. induction l as [|x l IH]; intros st; [done|]. apply IH. Qed.

(** A loop over [a] around a loop over [x < K] is one loop over the
    codes [a * K + x]. *)
Lemma fold_left_codes {A : Type} (f : A -> Z -> A) (K a0 : Z) (n : nat)
    (st : A) :
  0 <= K ->
  fold_left (fun st a => fold_left f (seqZ (a * K) K) st)
    (seqZ a0 (Z.of_nat n)) st
  = fold_left f (seqZ (a0 * K) (Z.of_nat n * K)) st.
Proof.
  intros HK. revert a0 st. induction n as [|n IH]; intros a0 st.
  - by rewrite Z.mul_0_l.
  - rewrite seqZ_cons by lia. cbn [fold_left].
    replace (Z.pred (Z.of_nat (S n))) with (Z.of_nat n) by lia.
    rewrite IH.
    replace (Z.of_nat (S n) * K) with (K + Z.of_nat n * K) by lia.
    rewrite seqZ_app by lia. rewrite fold_left_app.
    replace (Z.succ a0 * K) with (a0 * K + K) by lia. reflexivity.
Qed.

End LoopFolds.

Section GeneratorFacts.
Import Js Catalog Generator.
Variable to_xyz_d65 : Q * Q * Q -> Coords.
Variable to_okhsl : Q * Q * Q -> Coords.

Local Abbreviation push := (pushColor to_xyz_d65 to_okhsl).
Local Abbreviation row := (rowOfCode to_xyz_d65 to_okhsl).
Local Abbreviation pushAt := (pushCode to_xyz_d65 to_okhsl).

Local Open Scope Z_scope.

Lemma pushCode_rgb (st : Progress) (r g b : Z) :
  0 <= r -> 0 <= g < 256 -> 0 <= b < 256 ->
  push st r g b = pushAt st ((r * 256 + g) * 256 + b).
Proof.
  intros Hr Hg Hb. unfold pushCode.
  replace (((r * 256 + g) * 256 + b) / 65536) with r
    by (apply Z.div_unique with (g * 256 + b); lia).
  replace (((r * 256 + g) * 256 + b) / 256) with (r * 256 + g)
    by (apply Z.div_unique with b; lia).
  replace ((r * 256 + g) mod 256) with g
    by (apply Z.mod_unique with r; lia).
  replace (((r * 256 + g) * 256 + b) mod 256) with b
    by (apply Z.mod_unique with (r * 256 + g); lia).
  done.
Qed.

Lemma generateLoop_codes (st : Progress) :
  generateLoop to_xyz_d65 to_okhsl st
  = fold_left pushAt (seqZ 0 16777216) st.
Proof.
  unfold generateLoop. rewrite forLoop_fold.
  replace (Z.of_nat (Z.to_nat RGB_MAX)) with 256 by done.
  rewrite (fold_left_ext_in _
             (fun st r => fold_left pushAt (seqZ (r * 65536) 65536) st)).
  { rewrite (fold_left_codes pushAt 65536 0 256) by lia.
    replace (0 * 65536) with 0 by lia.
    replace (Z.of_nat 256 * 65536) with 16777216 by lia.
    reflexivity. }
  intros st1 r [Hr0 Hr1]%elem_of_seqZ. rewrite forLoop_fold.
  replace (Z.of_nat (Z.to_nat RGB_MAX)) with 256 by done.
  rewrite (fold_left_ext_in _
             (fun st g =>
                fold_left pushAt (seqZ ((r * 256 + g) * 256) 256) st)).
  { rewrite <- (fold_left_fmap
                  (fun st a => fold_left pushAt (seqZ (a * 256) 256) st)
                  (Z.add (r * 256))).
    rewrite fmap_add_seqZ.
    replace (r * 256 + 0) with (r * 256) by lia.
    rewrite (fold_left_codes pushAt 256 (r * 256) 256) by lia.
    replace (r * 256 * 256) with (r * 65536) by lia.
    replace (Z.of_nat 256 * 256) with 65536 by lia.
    reflexivity. }
  intros st2 g [Hg0 Hg1]%elem_of_seqZ. rewrite forLoop_fold.
  replace (Z.of_nat (Z.to_nat RGB_MAX)) with 256 by done.
  replace (seqZ ((r * 256 + g) * 256) 256)
    with (Z.add ((r * 256 + g) * 256) <$> seqZ 0 256)
    by (by rewrite fmap_add_seqZ, Z.add_0_r).
  rewrite fold_left_fmap. apply fold_left_ext_in.
  intros st3 b [Hb0 Hb1]%elem_of_seqZ. apply pushCode_rgb; lia.
Qed.

(** Batching: what is committed and what is pending, after any run of
    the loop body. *)
Lemma pushCode_step (st : Progress) (v : Z) :
  Z.of_nat (length (batch st)) < BATCH_SIZE ->
  Z.of_nat (length (batch (pushAt st v))) < BATCH_SIZE
  /\ exists new,
       committed (pushAt st v) = committed st ++ new
       /\ Forall (fun t => Z.of_nat (length t) = BATCH_SIZE) new
       /\ processed (pushAt st v)
          = processed st + Z.of_nat (length new) * BATCH_SIZE
       /\ concat new ++ batch (pushAt st v) = batch st ++ [row v].
Proof.
  intros Hlt. unfold pushCode, pushColor. cbv zeta. fold (row v).
  destruct (Z.leb_spec BATCH_SIZE
              (Z.of_nat (length (batch st ++ [row v])))) as [Hfull|Hroom];
    cbn [batch processed committed].
  - split; [by compute|]. exists [batch st ++ [row v]].
    rewrite length_app in Hfull. cbn [length] in Hfull.
    split; [done|]. split.
    + constructor; [|constructor]. rewrite length_app. cbn [length]. lia.
    + split; [|cbn [concat]; by rewrite !app_nil_r].
      rewrite length_app. cbn [length]. lia.
  - split; [done|]. exists []. rewrite !app_nil_r.
    split; [done|]. split; [constructor|]. split; [cbn [length]; lia|done].
Qed.

Lemma pushCode_batches (codes : list Z) (st : Progress) :
  Z.of_nat (length (batch st)) < BATCH_SIZE ->
  Z.of_nat (length (batch (fold_left pushAt codes st))) < BATCH_SIZE
  /\ exists new,
       committed (fold_left pushAt codes st) = committed st ++ new
       /\ Forall (fun t => Z.of_nat (length t) = BATCH_SIZE) new
       /\ processed (fold_left pushAt codes st)
          = processed st + Z.of_nat (length new) * BATCH_SIZE
       /\ concat new ++ batch (fold_left pushAt codes st)
          = batch st ++ (row <$> codes).
Proof.
  revert st. induction codes as [|v codes IH]; intros st Hlt.
  - cbn [fold_left fmap list_fmap]. split; [done|]. exists [].
    rewrite !app_nil_r. split; [done|]. split; [constructor|].
    split; [cbn [length]; lia|done].
  - cbn [fold_left].
    destruct (pushCode_step st v Hlt) as (Hlt1 & new1 & Hc1 & Hf1 & Hp1 & Hr1).
    destruct (IH (pushAt st v) Hlt1) as (Hlt' & new & Hc & Hf & Hp & Hr).
    split; [done|]. exists (new1 ++ new).
    split; [by rewrite Hc, Hc1, (assoc_L (++))|].
    split; [by apply Forall_app|].
    split; [rewrite Hp, Hp1, length_app; lia|].
    rewrite concat_app, <- (assoc_L (++)), Hr, (assoc_L (++)), Hr1.
    rewrite fmap_cons. by rewrite <- (assoc_L (++)).
Qed.

Lemma length_concat_batches (new : list (list ColorTuple)) :
  Forall (fun t => Z.of_nat (length t) = BATCH_SIZE) new ->
  Z.of_nat (length (concat new)) = Z.of_nat (length new) * BATCH_SIZE.
Proof.
  induction 1 as [|t new Ht _ IH]; [done|].
  cbn [concat length]. rewrite length_app. lia.
Qed.

Lemma batch_sizes (new : list (list ColorTuple)) :
  Forall (fun t => Z.of_nat (length t) = BATCH_SIZE) new ->
  (fun t => Z.of_nat (length t)) <$> new = replicate (length new) BATCH_SIZE.
Proof.
  induction 1 as [|t new Ht _ IH]; [done|].
  cbn [fmap list_fmap length replicate]. by rewrite Ht, IH.
Qed.

(** The run of the three loops, before the last flush. *)
Lemma generateLoop_result (rows0 : list (list ColorTuple)) :
  let st := generateLoop to_xyz_d65 to_okhsl (mkProgress [] 0 rows0) in
  exists new,
    committed st = rows0 ++ new
    /\ Forall (fun t => Z.of_nat (length t) = BATCH_SIZE) new
    /\ length new = 1677%nat
    /\ Z.of_nat (length (batch st)) = 7216
    /\ processed st = 16770000
    /\ concat new ++ batch st = row <$> seqZ 0 16777216.
Proof.
  rewrite generateLoop_codes. cbv zeta.
  destruct (pushCode_batches (seqZ 0 16777216) (mkProgress [] 0 rows0))
    as (Hlt & new & Hc & Hf & Hp & Hr); [by compute|].
  set (st := fold_left pushAt (seqZ 0 16777216) (mkProgress [] 0 rows0))
    in *.
  clearbody st.
  cbn [batch processed committed] in Hc, Hp, Hr.
  rewrite app_nil_l in Hr.
  assert (Z.of_nat (length new) * BATCH_SIZE
          + Z.of_nat (length (batch st)) = 16777216) as Hlen.
  { rewrite <- length_concat_batches by done.
    rewrite <- Nat2Z.inj_add, <- length_app, Hr, length_fmap, length_seqZ.
    lia. }
  unfold BATCH_SIZE in Hlt, Hp, Hlen. exists new.
  split; [done|]. split; [done|]. split; [lia|]. split; [lia|].
  split; [lia|]. done.
Qed.

(** X13.  [generateColors] appends to the table one row for each of the
    16777216 colours, in the order of the code [r * 65536 + g * 256 +
    b]: whatever the table held, the row at that offset among the new
    ones is the tuple of [convertRgbToColorData r g b]; the rows that
    were there stay in front, and [processed] ends as 16777216. *)
Theorem generateColors_table (rows0 : list (list ColorTuple)) (r g b : Z) :
  0 <= r < 256 -> 0 <= g < 256 -> 0 <= b < 256 ->
  let st := generateColors to_xyz_d65 to_okhsl rows0 in
  let table := concat (committed st) in
  let before := length (concat rows0) in
  table !! (before + Z.to_nat (r * 65536 + g * 256 + b))%nat
  = Some (colorDataToTuple (convertRgbToColorData to_xyz_d65 to_okhsl r g b))
  /\ take before table = concat rows0
  /\ Z.of_nat (length table) = Z.of_nat before + 16777216
  /\ processed st = 16777216.
Proof.
  intros Hr Hg Hb'. cbv zeta. unfold generateColors, flush.
  destruct (generateLoop_result rows0) as (new & Hc & Hf & Hn & Hb & Hp & Hrows).
  set (st := generateLoop to_xyz_d65 to_okhsl (mkProgress [] 0 rows0)) in *.
  clearbody st.
  destruct (Z.ltb_spec 0 (Z.of_nat (length (batch st)))) as [_|]; [|lia].
  cbn [committed processed]. rewrite Hc, !concat_app. cbn [concat].
  rewrite app_nil_r, <- (assoc_L (++)), Hrows.
  split; [|split; [|split]].
  - rewrite lookup_app_r by lia.
    replace (length (concat rows0) + Z.to_nat (r * 65536 + g * 256 + b)
             - length (concat rows0))%nat
      with (Z.to_nat (r * 65536 + g * 256 + b)) by lia.
    rewrite list_lookup_fmap, lookup_seqZ_lt by lia.
    cbn [fmap option_fmap option_map].
    f_equal. unfold rowOfCode. f_equal.
    rewrite Z2Nat.id by lia.
    replace (0 + (r * 65536 + g * 256 + b)) with ((r * 256 + g) * 256 + b)
      by lia.
    replace (((r * 256 + g) * 256 + b) / 65536) with r
      by (apply Z.div_unique with (g * 256 + b); lia).
    replace (((r * 256 + g) * 256 + b) / 256) with (r * 256 + g)
      by (apply Z.div_unique with b; lia).
    replace ((r * 256 + g) mod 256) with g
      by (apply Z.mod_unique with r; lia).
    replace (((r * 256 + g) * 256 + b) mod 256) with b
      by (apply Z.mod_unique with (r * 256 + g); lia).
    done.
  - by rewrite take_app_length.
  - rewrite length_app, length_fmap, length_seqZ. lia.
  - lia.
Qed.

(** X14.  [generateColors] commits 1678 transactions: 1677 of [BATCH_SIZE]
    rows each, then one with the 7216 rows that are left. *)
Theorem generateColors_batches (rows0 : list (list ColorTuple)) :
  exists new,
    committed (generateColors to_xyz_d65 to_okhsl rows0) = rows0 ++ new
    /\ (fun t => Z.of_nat (length t)) <$> new
       = replicate 1677 BATCH_SIZE ++ [7216].
Proof.
  unfold generateColors, flush.
  destruct (generateLoop_result rows0) as (new & Hc & Hf & Hn & Hb & Hp & Hrows).
  set (st := generateLoop to_xyz_d65 to_okhsl (mkProgress [] 0 rows0)) in *.
  clearbody st.
  destruct (Z.ltb_spec 0 (Z.of_nat (length (batch st)))) as [_|]; [|lia].
  cbn [committed]. exists (new ++ [batch st]).
  split; [by rewrite Hc, (assoc_L (++))|].
  rewrite fmap_app, batch_sizes, Hn by done.
  cbn [fmap list_fmap]. by rewrite Hb.
Qed.

End GeneratorFacts.

Section GeneratorRuns.
Import Js Catalog Generator.

Lemma generateColors_table_witness :
  let none : Q * Q * Q -> Coords := fun _ => (None, None, None) in
  concat (committed (generateColors none none []))
    !! (0 + Z.to_nat (255 * 65536 + 128 * 256 + 0))%nat
  = Some (colorDataToTuple (convertRgbToColorData none none 255 128 0)).
Proof.
  intros none.
  destruct (generateColors_table none none [] 255 128 0) as (Hrow & _);
    [lia..|].
  exact Hrow.
Defined.

End GeneratorRuns.

(** ** More on the lightness table *)

Section LightnessTableMore.
Import Precompute.
Local Open Scope R_scope.

Lemma Rleb_spec (a b : R) : reflect (a <= b) (Rleb a b).
Proof. unfold Rleb. destruct (Rle_dec a b); by constructor. Qed.

Lemma Rltb_spec (a b : R) : reflect (a < b) (Rltb a b).
Proof. unfold Rltb. destruct (Rlt_dec a b); by constructor. Qed.

Lemma clamp_range (x : R) : 0 <= Math_max 0 (Math_min 1 x) <= 1.
Proof.
  unfold Math_max, Math_min. split; [apply Rmax_l|].
  apply Rmax_lub; [lra|apply Rmin_l].
Qed.

(** X15.  [reverseWCAGContrast] checks the luminance first and the
    contrast second: it throws the luminance error exactly when [y] is
    outside [0,1], the contrast error exactly when [y] is in [0,1] and
    [contrast] outside [1,21], and otherwise returns a luminance in
    [0,1]. *)
Theorem reverseWCAGContrast_guards (contrast y : R) :
  match reverseWCAGContrast contrast y with
  | Ok v => 0 <= y <= 1 /\ 1 <= contrast <= WCAG_MAX_CONTRAST /\ 0 <= v <= 1
  | Throw (InvalidLuminance y') => y' = y /\ ~ (0 <= y <= 1)
  | Throw (InvalidContrast contrast') =>
      contrast' = contrast /\ 0 <= y <= 1
      /\ ~ (1 <= contrast <= WCAG_MAX_CONTRAST)
  end.
Proof.
  unfold reverseWCAGContrast.
  destruct (Rleb_spec 0 y) as [Hy0|Hy0]; cbn [andb];
    [destruct (Rleb_spec y 1) as [Hy1|Hy1]|]; [|split; [done|lra]..].
  destruct (Rleb_spec 1 contrast) as [Hc1|Hc1]; cbn [andb];
    [destruct (Rleb_spec contrast WCAG_MAX_CONTRAST) as [Hc2|Hc2]|];
    [|split; [done|split; [done|lra]]..].
  split; [done|]. split; [done|]. apply clamp_range.
Qed.

(** X16.  On the real-number model [reverseWCAGContrast] inverts the
    WCAG contrast formula.  For a reference above the threshold 0.18 the
    result is darker than the reference, and the contrast of the
    reference against it is the target, capped by the contrast against
    black; for a reference up to 0.18 the result is lighter, and its
    contrast against the reference is the target, capped by the contrast
    of white.  The equations are exact for real numbers only: the code
    meets them up to the rounding of binary64 (the contrast 1.55 against
    white comes back as 1.5499999999999998). *)
Theorem reverseWCAGContrast_inverts (contrast y : R) :
  0 <= y <= 1 -> 1 <= contrast <= WCAG_MAX_CONTRAST ->
  exists v,
    reverseWCAGContrast contrast y = Ok v
    /\ if Rltb WCAG_THRESHOLD y
       then v <= y
            /\ (y + WCAG_LUMINANCE_OFFSET) / (v + WCAG_LUMINANCE_OFFSET)
               = Rmin contrast
                   ((y + WCAG_LUMINANCE_OFFSET) / (0 + WCAG_LUMINANCE_OFFSET))
       else y <= v
            /\ (v + WCAG_LUMINANCE_OFFSET) / (y + WCAG_LUMINANCE_OFFSET)
               = Rmin contrast
                   ((1 + WCAG_LUMINANCE_OFFSET) / (y + WCAG_LUMINANCE_OFFSET)).
Proof.
  intros [Hy0 Hy1] [Hc1 Hc2]. unfold reverseWCAGContrast.
  rewrite !Rleb_true by done. cbn [andb]. eexists. split; [done|].
  unfold WCAG_MAX_CONTRAST, WCAG_THRESHOLD, WCAG_LUMINANCE_OFFSET,
    Math_max, Math_min in *.
  destruct (Rltb_spec 0.18 y) as [Hy|Hy].
  - assert ((y + 0.05) / contrast <= y + 0.05) as Hdiv.
    { apply (Rmult_le_reg_r contrast); [lra|].
      unfold Rdiv. rewrite Rmult_assoc, Rinv_l by lra. nra. }
    rewrite (Rmin_right 1) by lra.
    destruct (Rle_lt_dec 0 ((y + 0.05) / contrast - 0.05)) as [Hpos|Hneg].
    + rewrite Rmax_right by done. split; [lra|].
      replace ((y + 0.05) / contrast - 0.05 + 0.05)
        with ((y + 0.05) / contrast) by lra.
      rewrite Rmin_left.
      * field. lra.
      * apply (Rmult_le_reg_r (0 + 0.05)); [lra|].
        unfold Rdiv at 1. rewrite Rmult_assoc, Rinv_l by lra.
        assert ((y + 0.05) / contrast * contrast = y + 0.05) as E
          by (field; lra).
        nra.
    + rewrite Rmax_left by lra. split; [lra|].
      rewrite Rmin_right; [done|].
      apply (Rmult_le_reg_r (0 + 0.05)); [lra|].
      unfold Rdiv at 1. rewrite Rmult_assoc, Rinv_l by lra.
      assert ((y + 0.05) / contrast * contrast = y + 0.05) as E
        by (field; lra).
      nra.
  - assert (y <= 0.18) as Hy' by lra.
    destruct (Rle_lt_dec (contrast * (y + 0.05) - 0.05) 1) as [Hin|Hout].
    + rewrite Rmin_right by done. rewrite Rmax_right by nra.
      split; [nra|].
      replace (contrast * (y + 0.05) - 0.05 + 0.05)
        with (contrast * (y + 0.05)) by lra.
      rewrite Rmin_left.
      * field. lra.
      * apply (Rmult_le_reg_r (y + 0.05)); [lra|].
        unfold Rdiv. rewrite Rmult_assoc, Rinv_l by lra. lra.
    + rewrite Rmin_left by lra. rewrite Rmax_right by lra.
      split; [lra|].
      rewrite Rmin_right; [done|].
      apply (Rmult_le_reg_r (y + 0.05)); [lra|].
      unfold Rdiv. rewrite Rmult_assoc, Rinv_l by lra. lra.
Qed.

Lemma reverseWCAGContrast_inverts_witness :
  exists v,
    reverseWCAGContrast 1.55 1 = Ok v
    /\ if Rltb WCAG_THRESHOLD 1
       then v <= 1
            /\ (1 + WCAG_LUMINANCE_OFFSET) / (v + WCAG_LUMINANCE_OFFSET)
               = Rmin 1.55
                   ((1 + WCAG_LUMINANCE_OFFSET) / (0 + WCAG_LUMINANCE_OFFSET))
       else 1 <= v
            /\ (v + WCAG_LUMINANCE_OFFSET) / (1 + WCAG_LUMINANCE_OFFSET)
               = Rmin 1.55
                   ((1 + WCAG_LUMINANCE_OFFSET) / (1 + WCAG_LUMINANCE_OFFSET)).
Proof.
  apply (reverseWCAGContrast_inverts 1.55 1); unfold WCAG_MAX_CONTRAST; lra.
Defined.

(** X17.  [scaleToContrast] is geometric: a sum of scale values gives the
    product of the contrasts, so a longer way along the scale gives a
    strictly larger contrast; the ends of the scale give 1 and 21. *)
Theorem scaleToContrast_geometric (s d : R) :
  scaleToContrast (s + d) = scaleToContrast s * scaleToContrast d
  /\ (0 < d -> scaleToContrast s < scaleToContrast (s + d))
  /\ scaleToContrast 0 = 1
  /\ scaleToContrast (IZR SCALE_MAX) = WCAG_MAX_CONTRAST.
Proof.
  split; [|split; [|split]].
  - unfold scaleToContrast, SCALE_MAX. cbv zeta. rewrite <- exp_plus.
    f_equal. field.
  - intros Hd. unfold scaleToContrast, SCALE_MAX, WCAG_MAX_CONTRAST.
    cbv zeta. apply exp_increasing.
    pose proof ln_21_pos.
    apply Rmult_lt_compat_l; [done|]. lra.
  - apply scaleToContrast_0.
  - apply scaleToContrast_1000.
Qed.

Lemma scaleToContrast_geometric_witness :
  scaleToContrast 500 < scaleToContrast (500 + 1).
Proof.
  destruct (scaleToContrast_geometric 500 1) as (_ & Hlt & _).
  apply Hlt. lra.
Defined.

(** *** The toe *)

Lemma toe_root (L : R) :
  0 <= L -> 0 <= toe L /\ toe L * (toe L + K1) = K3 * L * (toe L + K2).
Proof.
  intros HL. unfold toe.
  assert (0 < K3) as HK3 by (unfold K3; lra).
  assert (0 < K2) as HK2 by (unfold K2; lra).
  assert (0 < K2 * K3) as HK23 by (by apply Rmult_lt_0_compat).
  set (t := K3 * L - K1).
  set (a := t * t + 4 * K2 * K3 * L).
  assert (0 <= a) as Ha by (unfold a; nra).
  pose proof (sqrt_sqrt a Ha) as Hsq.
  pose proof (sqrt_pos a) as Hpos.
  assert (- t <= sqrt a) as Hneg.
  { destruct (Rle_lt_dec 0 t) as [Ht|Ht]; [lra|].
    rewrite <- (sqrt_square (- t)) by lra.
    apply sqrt_le_1; unfold a; nra. }
  split.
  - lra.
  - unfold a, t in *. nra.
Qed.

Lemma toe_0 : toe 0 = 0.
Proof.
  destruct (toe_root 0) as [Hpos Hroot]; [lra|].
  unfold K1 in Hroot. nra.
Qed.

Lemma toe_1 : toe 1 = 1.
Proof.
  destruct (toe_root 1) as [Hpos Hroot]; [lra|].
  pose proof toe_identity as Hid. unfold K1, K2 in *.
  assert ((toe 1 - 1) * (toe 1 + 1.206 - K3 * 1) = 0) as Hfac by nra.
  assert (K3 = 1.206 / 1.03) as HK3 by (unfold K3; lra).
  apply Rmult_integral in Hfac as [?|Hz]; [lra|].
  rewrite HK3 in Hz. lra.
Qed.

(** X18.  [toe] fixes 0 and 1; for [L >= 0] it is the non-negative root
    [t] of [t * (t + K1) = K3 * L * (t + K2)], and it maps [0,1] into
    [0,1]. *)
Theorem toe_fixes_ends (L : R) :
  toe 0 = 0 /\ toe 1 = 1
  /\ (0 <= L -> 0 <= toe L
               /\ toe L * (toe L + K1) = K3 * L * (toe L + K2))
  /\ (0 <= L <= 1 -> 0 <= toe L <= 1).
Proof.
  split; [apply toe_0|]. split; [apply toe_1|]. split; [apply toe_root|].
  intros [HL0 HL1]. split; [by apply toe_root|].
  rewrite <- toe_1. by apply toe_le.
Qed.

Lemma toe_fixes_ends_witness : 0 <= toe 0.5 <= 1.
Proof.
  destruct (toe_fixes_ends 0.5) as (_ & _ & _ & H). apply H. lra.
Defined.

(** *** Oklab lightness *)

Lemma Math_cbrt_0 : Math_cbrt 0 = 0.
Proof. apply Math_cbrt_unique; lra. Qed.

Lemma yToOklabLightness_nonpos (y : R) : y <= 0 -> yToOklabLightness y = 0.
Proof.
  intros Hy. unfold yToOklabLightness, XYZ_TO_LMS_MATRIX,
    LMS_TO_OKLAB_MATRIX, D65_X_FACTOR, D65_Z_FACTOR, Math_max.
  cbv zeta. rewrite !Rmax_left by lra. rewrite Math_cbrt_0. lra.
Qed.

(** X19.  [yToOklabLightness] is 0 on a luminance that is not positive
    (the clamp of l, m and s), and follows a cube-root law on the
    others: its cube is [y] times the cube of its value at 1, which
    lies in [0.9999, 1). *)
Theorem yToOklabLightness_cube_law (y : R) :
  (y <= 0 -> yToOklabLightness y = 0)
  /\ (0 <= y ->
      0 <= yToOklabLightness y
      /\ yToOklabLightness y * yToOklabLightness y * yToOklabLightness y
         = yToOklabLightness 1 * yToOklabLightness 1 * yToOklabLightness 1
           * y)
  /\ 0.9999 <= yToOklabLightness 1 < 1.
Proof.
  split; [apply yToOklabLightness_nonpos|split].
  - intros Hy. split; [by apply yToOklabLightness_nonneg|].
    rewrite (yToOklabLightness_scale y Hy).
    pose proof (Math_cbrt_cube y Hy) as Hc.
    transitivity (yToOklabLightness 1 * yToOklabLightness 1
                  * yToOklabLightness 1
                  * (Math_cbrt y * Math_cbrt y * Math_cbrt y)); [ring|].
    by rewrite Hc.
  - apply yToOklabLightness_1_bounds.
Qed.

Lemma yToOklabLightness_cube_law_witness :
  yToOklabLightness (- 1) = 0
  /\ yToOklabLightness (1 / 8) * yToOklabLightness (1 / 8)
     * yToOklabLightness (1 / 8)
     = yToOklabLightness 1 * yToOklabLightness 1 * yToOklabLightness 1
       * (1 / 8).
Proof.
  split.
  - destruct (yToOklabLightness_cube_law (- 1)) as (H & _). apply H. lra.
  - destruct (yToOklabLightness_cube_law (1 / 8)) as (_ & H & _).
    apply H. lra.
Defined.

(** *** The table *)

Lemma targetLuminance_range (contrast : R) :
  0 <= targetLuminance contrast <= 1.
Proof. apply clamp_range. Qed.

Lemma yToOkhslLightness_range (y : R) :
  0 <= y <= 1 -> 0 <= yToOkhslLightness y < 1.
Proof.
  intros [H0 H1]. unfold yToOkhslLightness.
  pose proof (yToOklabLightness_nonneg y H0) as Hlo.
  pose proof (yToOklabLightness_le y 1 H0 H1) as Hhi.
  destruct yToOklabLightness_1_bounds as [_ Hlt].
  split; [by apply toe_root|]. apply toe_lt_1; lra.
Qed.

Lemma roundedLightness_range (x : R) :
  0 <= x < 1 ->
  exists n : Z, (0 <= n <= 100)%Z /\ roundedLightness x = IZR n / 100.
Proof.
  intros [H0 H1]. unfold roundedLightness, Math_round, LIGHTNESS_PRECISION.
  exists (Zfloor (x * 100 + 1 / 2)). split; [|done].
  split.
  - apply Zfloor_lub. simpl. lra.
  - assert (Zfloor (x * 100 + 1 / 2) < 101)%Z; [|lia].
    apply lt_IZR. eapply Rle_lt_trans; [apply Zfloor_bound|]. lra.
Qed.

Lemma tableEntry_1000 : tableEntry 1000 = 0.
Proof.
  unfold tableEntry. rewrite scaleToContrast_1000.
  assert (targetLuminance 21 = 0) as ->.
  { unfold targetLuminance, Math_max, Math_min.
    replace ((1 + 0.05) / 21 - 0.05) with 0 by lra.
    rewrite Rmin_right by lra. by rewrite Rmax_left by lra. }
  unfold yToOkhslLightness.
  rewrite yToOklabLightness_nonpos by lra. rewrite toe_0.
  unfold roundedLightness, Math_round, LIGHTNESS_PRECISION.
  rewrite (Zfloor_eq 0) by (simpl; lra). simpl. lra.
Qed.

(** X20.  The table of [computeAllLightnessValues] has the keys 0 to 1000
    and no other; each entry is a whole number of hundredths between
    0.00 and 1.00; the entry of step 0 is 1 and that of step 1000 is
    0. *)
Theorem lightness_table_shape (k : Z) :
  exists tbl,
    computeAllLightnessValues = Ok tbl
    /\ (is_Some (tbl !! k) <-> (0 <= k <= SCALE_MAX)%Z)
    /\ (forall v, tbl !! k = Some v ->
          exists n : Z, (0 <= n <= 100)%Z /\ v = IZR n / 100)
    /\ tbl !! 0%Z = Some 1
    /\ tbl !! SCALE_MAX = Some 0.
Proof.
  unfold computeAllLightnessValues.
  destruct (computeLoop_ok (Z.to_nat (SCALE_MAX + 1)) 0 ∅)
    as (tbl & Hrun & Hget); [unfold SCALE_MAX; lia..|].
  exists tbl. split; [exact Hrun|].
  assert (forall j, (0 <= j <= SCALE_MAX)%Z -> tbl !! j = Some (tableEntry j))
    as Hin.
  { intros j Hj. rewrite Hget, bool_decide_eq_true_2; [done|].
    unfold SCALE_MAX in *. lia. }
  split; [|split; [|split]].
  - rewrite Hget. case_bool_decide as Hk.
    + split; [unfold SCALE_MAX in *; lia|]. by eexists.
    + rewrite lookup_empty. split; [by intros [? ?]|].
      unfold SCALE_MAX in *. lia.
  - intros v. rewrite Hget. case_bool_decide as Hk; [|by rewrite lookup_empty].
    intros [= <-]. unfold tableEntry. apply roundedLightness_range.
    apply yToOkhslLightness_range, targetLuminance_range.
  - rewrite Hin by (unfold SCALE_MAX; lia). unfold tableEntry.
    rewrite scaleToContrast_0, targetLuminance_1.
    destruct step_0_raw_lightness as (_ & Hlo & Hhi).
    by rewrite roundedLightness_near_white.
  - rewrite Hin by (unfold SCALE_MAX; lia). f_equal. apply tableEntry_1000.
Qed.

Lemma lightness_table_shape_witness :
  exists tbl,
    computeAllLightnessValues = Ok tbl
    /\ (is_Some (tbl !! 500%Z) <-> (0 <= 500 <= SCALE_MAX)%Z)
    /\ (forall v, tbl !! 500%Z = Some v ->
          exists n : Z, (0 <= n <= 100)%Z /\ v = IZR n / 100)
    /\ tbl !! 0%Z = Some 1
    /\ tbl !! SCALE_MAX = Some 0.
Proof. apply (lightness_table_shape 500). Defined.

End LightnessTableMore.

(** ** The statistics of the lightness groups *)

Section MeasureFacts.
Import Js Measure.
Local Open Scope Q_scope.

(** *** Sorting *)

Lemma sortInsert_perm (x : Q) (l : list Q) : sortInsert x l ≡ₚ x :: l.
Proof.
  induction l as [|y l IH]; [done|]. cbn [sortInsert].
  destruct (Qle_bool x y); [done|]. by rewrite IH, Permutation_swap.
Qed.

Lemma Array_sort_perm (l : list Q) : Array_sort l ≡ₚ l.
Proof.
  induction l as [|x l IH]; [done|].
  unfold Array_sort in *. cbn [foldr]. by rewrite sortInsert_perm, IH.
Qed.

Lemma ascending_cons (x : Q) (l : list Q) :
  Forall (fun y => x <= y) l -> ascending l -> ascending (x :: l).
Proof.
  intros Hx Hl [|i] [|j] a b Hij Ha Hb; cbn in Ha, Hb.
  - injection Ha as <-. injection Hb as <-. apply Qle_refl.
  - injection Ha as <-. rewrite Forall_lookup in Hx. by apply (Hx j).
  - lia.
  - apply (Hl i j); [lia|done..].
Qed.

Lemma ascending_inv (x : Q) (l : list Q) :
  ascending (x :: l) -> Forall (fun y => x <= y) l /\ ascending l.
Proof.
  intros H. split.
  - apply Forall_lookup. intros j b Hb. apply (H 0%nat (S j)); [lia|done..].
  - intros i j a b Hij Ha Hb. apply (H (S i) (S j)); [lia|done..].
Qed.

Lemma sortInsert_ascending (x : Q) (l : list Q) :
  ascending l -> ascending (sortInsert x l).
Proof.
  induction l as [|y l IH]; intros Hl; cbn [sortInsert].
  - apply ascending_cons; [constructor|done].
  - destruct (Qle_bool x y) eqn:E.
    + apply Qle_bool_iff in E. apply ascending_cons; [|done].
      apply ascending_inv in Hl as [Hy _]. constructor; [done|].
      eapply Forall_impl; [exact Hy|]. intros z Hz. cbn in Hz.
      by apply Qle_trans with y.
    + assert (y <= x) as Hyx.
      { apply Qlt_le_weak, Qnot_le_lt. intros Hle.
        apply Qle_bool_iff in Hle. congruence. }
      apply ascending_inv in Hl as [Hy Hl]. apply ascending_cons; [|by apply IH].
      rewrite sortInsert_perm. by constructor.
Qed.

Lemma Array_sort_ascending (l : list Q) : ascending (Array_sort l).
Proof.
  induction l as [|x l IH].
  - intros i j a b _ Ha. unfold Array_sort in Ha. cbn [foldr] in Ha.
    by rewrite lookup_nil in Ha.
  - unfold Array_sort in *. cbn [foldr]. by apply sortInsert_ascending.
Qed.

Lemma length_Array_sort (l : list Q) : length (Array_sort l) = length l.
Proof. by rewrite Array_sort_perm. Qed.

(** *** Minima, maxima and the mean *)

Lemma Qmin_cases (x y : Q) : (Qmin x y = x /\ x <= y) \/ (Qmin x y = y /\ y <= x).
Proof.
  unfold Qmin, GenericMinMax.gmin. destruct (Qcompare_spec x y) as [E|E|E].
  - left. split; [done|]. rewrite E. apply Qle_refl.
  - left. split; [done|]. by apply Qlt_le_weak.
  - right. split; [done|]. by apply Qlt_le_weak.
Qed.

Lemma Qmax_cases (x y : Q) : (Qmax x y = x /\ y <= x) \/ (Qmax x y = y /\ x <= y).
Proof.
  unfold Qmax, GenericMinMax.gmax. destruct (Qcompare_spec x y) as [E|E|E].
  - left. split; [done|]. rewrite E. apply Qle_refl.
  - right. split; [done|]. by apply Qlt_le_weak.
  - left. split; [done|]. by apply Qlt_le_weak.
Qed.

Lemma fold_Qmin (l : list Q) (x : Q) :
  let lo := fold_left Qmin l x in
  lo ∈ x :: l /\ Forall (fun y => lo <= y) (x :: l).
Proof.
  cbv zeta. revert x. induction l as [|y l IH]; intros x; cbn [fold_left].
  - split; [left|]. constructor; [apply Qle_refl|constructor].
  - destruct (IH (Qmin x y)) as [Hin Hall].
    apply Forall_cons in Hall as [Hm Hall].
    destruct (Qmin_cases x y) as [[E Hxy]|[E Hyx]]; rewrite E in *.
    + split.
      * apply elem_of_cons in Hin as [->|Hin]; [left|right; by right].
      * constructor; [done|]. constructor; [|done]. by apply Qle_trans with x.
    + split.
      * by right.
      * constructor; [by apply Qle_trans with y|]. by constructor.
Qed.

Lemma fold_Qmax (l : list Q) (x : Q) :
  let hi := fold_left Qmax l x in
  hi ∈ x :: l /\ Forall (fun y => y <= hi) (x :: l).
Proof.
  cbv zeta. revert x. induction l as [|y l IH]; intros x; cbn [fold_left].
  - split; [left|]. constructor; [apply Qle_refl|constructor].
  - destruct (IH (Qmax x y)) as [Hin Hall].
    apply Forall_cons in Hall as [Hm Hall].
    destruct (Qmax_cases x y) as [[E Hxy]|[E Hyx]]; rewrite E in *.
    + split.
      * apply elem_of_cons in Hin as [->|Hin]; [left|right; by right].
      * constructor; [done|]. constructor; [|done]. by apply Qle_trans with x.
    + split.
      * by right.
      * constructor; [by apply Qle_trans with y|]. by constructor.
Qed.

Lemma calculateMean_finite (values : list Q) :
  values <> [] -> exists mean, calculateMean values = Finite mean.
Proof.
  intros Hne. unfold calculateMean. cbv zeta.
  destruct values as [|x l]; [done|].
  destruct (Z.eqb_spec (Z.of_nat (length (x :: l))) 0) as [E|_];
    [cbn [length] in E; lia|].
  by eexists.
Qed.

(** *** The median *)

Lemma Math_floor_half (n : nat) :
  Math_floor (inject_Z (Z.of_nat n) / 2) = Z.of_nat (n / 2).
Proof.
  unfold Math_floor. rewrite Nat2Z.inj_div.
  change 2 with (inject_Z 2). unfold Qdiv, Qinv, Qmult, Qfloor, inject_Z.
  cbn -[Z.mul Z.div Z.of_nat]. f_equal; lia.
Qed.

Lemma calculateMedian_spec (values : list Q) :
  values <> [] ->
  exists median lower upper,
    calculateMedian values = Finite median
    /\ lower ++ upper ≡ₚ values
    /\ length lower = (length values / 2)%nat
    /\ Forall (fun x => x <= median) lower
    /\ Forall (fun x => median <= x) upper
    /\ (exists a b, a ∈ values /\ b ∈ values /\ a <= median <= b).
Proof.
  intros Hne. unfold calculateMedian. cbv zeta.
  pose proof (Array_sort_perm values) as Hperm.
  pose proof (Array_sort_ascending values) as Hasc.
  rewrite Math_floor_half, length_Array_sort.
  set (sorted := Array_sort values) in *.
  set (n := length values).
  assert (0 < n)%nat as Hn by (destruct values; [done|cbn; lia]).
  assert (length sorted = n) as Hlen by apply length_Array_sort.
  pose proof (Nat.div_mod_eq n 2) as Hdm.
  pose proof (Nat.mod_upper_bound n 2) as Hm.
  assert (n / 2 < n)%nat as Hmid by lia.
  destruct (lookup_lt_is_Some_2 sorted (n / 2)) as [b Hb]; [lia|].
  assert (Array_get sorted (Z.of_nat (n / 2)) = Some b) as Hgb.
  { unfold Array_get. destruct (Z.ltb_spec (Z.of_nat (n / 2)) 0); [lia|].
    by rewrite Nat2Z.id. }
  assert (Forall (fun x => x <= b) (take (n / 2) sorted)) as Hlow.
  { apply Forall_lookup. intros i x Hx.
    apply lookup_take_Some in Hx as [Hx Hi].
    apply (Hasc i (n / 2)%nat); [lia|done..]. }
  assert (Forall (fun x => b <= x) (drop (n / 2) sorted)) as Hupp.
  { apply Forall_lookup. intros i x Hx. rewrite lookup_drop in Hx.
    apply (Hasc (n / 2)%nat (n / 2 + i)%nat); [lia|done..]. }
  assert (forall x, x ∈ sorted -> x ∈ values) as Hin
    by (intros x; by rewrite Hperm).
  destruct (Z.eqb_spec (Z.of_nat n mod 2) 0) as [Heven|Hodd].
  - assert (n mod 2 = 0)%nat as Hev.
    { apply Nat2Z.inj. by rewrite Nat2Z.inj_mod. }
    assert (0 < n / 2)%nat as Hk by lia.
    destruct (lookup_lt_is_Some_2 sorted (n / 2 - 1)) as [a Ha]; [lia|].
    assert (Array_get sorted (Z.of_nat (n / 2) - 1) = Some a) as Hga.
    { unfold Array_get.
      destruct (Z.ltb_spec (Z.of_nat (n / 2) - 1) 0); [lia|].
      replace (Z.to_nat (Z.of_nat (n / 2) - 1)) with (n / 2 - 1)%nat by lia.
      done. }
    rewrite Hga, Hgb.
    assert (a <= b) as Hab by (apply (Hasc (n / 2 - 1) (n / 2))%nat; [lia|done..]).
    exists ((a + b) / 2), (take (n / 2) sorted), (drop (n / 2) sorted).
    assert (a <= (a + b) / 2 <= b) as [Ham Hmb].
    { split; [apply Qle_shift_div_l|apply Qle_shift_div_r]; lra. }
    split; [done|]. split; [by rewrite take_drop|].
    split; [rewrite length_take; lia|]. split; [|split].
    + apply Forall_lookup. intros i x Hx.
      apply lookup_take_Some in Hx as [Hx Hi].
      apply Qle_trans with a; [|done].
      apply (Hasc i (n / 2 - 1)%nat); [lia|done..].
    + eapply Forall_impl; [exact Hupp|]. intros x Hx. cbn in Hx.
      by apply Qle_trans with b.
    + exists a, b. split; [eapply Hin, list_elem_of_lookup_2, Ha|].
      split; [eapply Hin, list_elem_of_lookup_2, Hb|done].
  - rewrite Hgb.
    exists b, (take (n / 2) sorted), (drop (n / 2) sorted).
    split; [done|]. split; [by rewrite take_drop|].
    split; [rewrite length_take; lia|]. split; [done|]. split; [done|].
    exists b, b. split; [eapply Hin, list_elem_of_lookup_2, Hb|].
    split; [eapply Hin, list_elem_of_lookup_2, Hb|].
    split; apply Qle_refl.
Qed.

(** X21.  The median of a list that is not empty splits it in two halves:
    the first, of [length / 2] values, has no value above the median,
    and the second has none below. *)
Theorem calculateMedian_splits (values : list Q) :
  values <> [] ->
  exists median lower upper,
    calculateMedian values = Finite median
    /\ lower ++ upper ≡ₚ values
    /\ length lower = (length values / 2)%nat
    /\ Forall (fun x => x <= median) lower
    /\ Forall (fun x => median <= x) upper.
Proof.
  intros Hne.
  destruct (calculateMedian_spec values Hne)
    as (median & lower & upper & Hm & Hp & Hl & Hlo & Hup & _).
  by exists median, lower, upper.
Qed.

Lemma calculateMedian_splits_witness :
  exists median lower upper,
    calculateMedian [3; 1; 4; 1] = Finite median
    /\ lower ++ upper ≡ₚ [3; 1; 4; 1]
    /\ length lower = (length [3; 1; 4; 1] / 2)%nat
    /\ Forall (fun x => x <= median) lower
    /\ Forall (fun x => median <= x) upper.
Proof. by apply (calculateMedian_splits [3; 1; 4; 1]). Defined.

(** *** The statistics *)

(** X22.  [calculateStatistics] throws exactly on an empty list.  On the
    others [totalGroups] is the number of groups, the minimum and the
    maximum are distances of groups and bound all of them, the median
    lies between the two, and the mean is a number ([NaN] is for the
    empty list only).  Nothing is said of where the mean lies: the code
    rounds its sum and its quotient, and its mean of 0.1, 0.1 and 0.1 is
    above 0.1. *)
Theorem calculateStatistics_bounds (groups : list LightnessGroupResult) :
  match calculateStatistics groups with
  | Throw message =>
      groups = []
      /\ message = "Cannot calculate statistics for empty group list"%string
  | Ok stats =>
      groups <> []
      /\ totalGroups stats = Z.of_nat (length groups)
      /\ exists mean median lo hi,
           meanDistance stats = Finite mean
           /\ medianDistance stats = Finite median
           /\ minDistance stats = Finite lo
           /\ maxDistance stats = Finite hi
           /\ lo ∈ y_distance <$> groups
           /\ hi ∈ y_distance <$> groups
           /\ Forall (fun g => lo <= y_distance g <= hi) groups
           /\ lo <= median <= hi
  end.
Proof.
  unfold calculateStatistics.
  destruct (Z.eqb_spec (Z.of_nat (length groups)) 0) as [E|E].
  { split; [|done]. destruct groups; [done|cbn [length] in E; lia]. }
  assert (groups <> []) as Hne by (intros ->; by cbn in E).
  split; [done|]. cbn [totalGroups meanDistance medianDistance minDistance
                       maxDistance].
  split; [by rewrite length_fmap|].
  set (distances := y_distance <$> groups).
  assert (distances <> []) as Hdne
    by (unfold distances; destruct groups; [done|by cbn]).
  destruct distances as [|d ds] eqn:Hds; [done|].
  destruct (fold_Qmin ds d) as [Hlo_in Hlo]. cbv zeta in Hlo_in, Hlo.
  destruct (fold_Qmax ds d) as [Hhi_in Hhi]. cbv zeta in Hhi_in, Hhi.
  set (lo := fold_left Qmin ds d) in *. set (hi := fold_left Qmax ds d) in *.
  assert (Forall (fun x => lo <= x <= hi) (d :: ds)) as Hall.
  { apply Forall_forall. intros x Hx. rewrite Forall_forall in Hlo, Hhi.
    split; [by apply Hlo|by apply Hhi]. }
  destruct (calculateMean_finite (d :: ds)) as (mean & Hmean); [done|].
  destruct (calculateMedian_spec (d :: ds))
    as (median & _ & _ & Hmed & _ & _ & _ & _ & a & b & Ha & Hb & Ham & Hmb');
    [done|].
  exists mean, median, lo, hi.
  split; [done|]. split; [done|]. split; [done|]. split; [done|].
  split; [done|]. split; [done|]. split.
  { apply Forall_forall. intros g Hg. rewrite Forall_forall in Hall.
    apply Hall. rewrite <- Hds. unfold distances.
    by apply list_elem_of_fmap_2. }
  rewrite Forall_forall in Hall.
  destruct (Hall a Ha) as [Hla _]. destruct (Hall b Hb) as [_ Hbh].
  split; [by apply Qle_trans with a|by apply Qle_trans with b].
Qed.

(** *** The widest group *)

Lemma findMaxDistanceGroup_fold (first : LightnessGroupResult)
    (rest : list LightnessGroupResult) :
  findMaxDistanceGroup (first :: rest) = Ok (fold_left wider rest first).
Proof. done. Qed.

Lemma wider_fold (rest before : list LightnessGroupResult)
    (first : LightnessGroupResult) (after : list LightnessGroupResult) :
  Forall (fun h => y_distance h < y_distance first) before ->
  Forall (fun h => y_distance h <= y_distance first) after ->
  exists before' after',
    before ++ first :: after ++ rest
    = before' ++ fold_left wider rest first :: after'
    /\ Forall (fun h => y_distance h < y_distance (fold_left wider rest first))
         before'
    /\ Forall (fun h => y_distance h <= y_distance (fold_left wider rest first))
         after'.
Proof.
  revert before first after.
  induction rest as [|g rest IH]; intros before first after Hb Ha;
    cbn [fold_left].
  - exists before, after. by rewrite app_nil_r.
  - destruct (Qlt_bool (y_distance first) (y_distance g)) eqn:E.
    + assert (wider first g = g) as -> by (unfold wider; by rewrite E).
      apply Qlt_bool_iff in E.
      destruct (IH (before ++ first :: after) g []) as (b' & a' & Heq & Hb' & Ha').
      * apply Forall_app. split.
        { eapply Forall_impl; [exact Hb|]. intros h Hh. cbn in Hh.
          by apply Qlt_trans with (y_distance first). }
        constructor; [done|].
        eapply Forall_impl; [exact Ha|]. intros h Hh. cbn in Hh.
        by apply Qle_lt_trans with (y_distance first).
      * constructor.
      * exists b', a'. split; [|done]. rewrite <- Heq.
        by rewrite <- !(assoc_L (++)).
    + assert (wider first g = first) as -> by (unfold wider; by rewrite E).
      assert (y_distance g <= y_distance first) as Hle.
      { apply Qnot_lt_le. intros Hlt. apply Qlt_bool_iff in Hlt. congruence. }
      destruct (IH before first (after ++ [g])) as (b' & a' & Heq & Hb' & Ha').
      * done.
      * apply Forall_app. split; [done|]. by constructor.
      * exists b', a'. split; [|done]. rewrite <- Heq.
        by rewrite <- !(assoc_L (++)).
Qed.

(** X23.  [findMaxDistanceGroup] throws exactly on an empty list, and on
    the others returns the first of the groups of largest distance:
    the groups before it have a smaller distance, the ones after it
    none larger. *)
Theorem findMaxDistanceGroup_first_max (groups : list LightnessGroupResult) :
  match findMaxDistanceGroup groups with
  | Throw message =>
      groups = []
      /\ message = "Cannot find max distance group in empty list"%string
  | Ok group =>
      exists before after,
        groups = before ++ group :: after
        /\ Forall (fun h => y_distance h < y_distance group) before
        /\ Forall (fun h => y_distance h <= y_distance group) after
  end.
Proof.
  destruct groups as [|first rest]; [done|].
  rewrite findMaxDistanceGroup_fold.
  destruct (wider_fold rest [] first []) as (b & a & Heq & Hb & Ha);
    [constructor..|].
  by exists b, a.
Qed.

(** X24.  On groups that are not empty the two functions agree: the
    [maxDistance] of [calculateStatistics] is the distance of the
    group that [findMaxDistanceGroup] returns. *)
Theorem max_distance_agrees (groups : list LightnessGroupResult) :
  groups <> [] ->
  exists stats group hi,
    calculateStatistics groups = Ok stats
    /\ findMaxDistanceGroup groups = Ok group
    /\ group ∈ groups
    /\ maxDistance stats = Finite hi
    /\ hi == y_distance group.
Proof.
  intros Hne. destruct groups as [|first rest]; [done|].
  unfold calculateStatistics.
  destruct (Z.eqb_spec (Z.of_nat (length (first :: rest))) 0) as [E|_];
    [cbn [length] in E; lia|].
  rewrite findMaxDistanceGroup_fold.
  destruct (wider_fold rest [] first []) as (b & a & Heq & Hb & Ha);
    [constructor..|].
  cbn [app] in Heq.
  set (group := fold_left wider rest first) in *.
  rewrite fmap_cons. cbn [Math_max maxDistance].
  destruct (fold_Qmax (y_distance <$> rest) (y_distance first))
    as [Hin Hall]. cbv zeta in Hin, Hall.
  set (hi := fold_left Qmax (y_distance <$> rest) (y_distance first)) in *.
  rewrite <- fmap_cons in Hin, Hall.
  assert (group ∈ first :: rest) as Hg
    by (rewrite Heq; apply elem_of_app; right; left).
  eexists _, group, hi. split; [done|]. split; [done|]. split; [done|].
  split; [done|]. apply Qle_antisym.
  - apply list_elem_of_fmap in Hin as (g & -> & Hgin).
    rewrite Heq in Hgin. apply elem_of_app in Hgin as [Hgin|Hgin].
    + rewrite Forall_forall in Hb. by apply Qlt_le_weak, Hb.
    + apply elem_of_cons in Hgin as [->|Hgin]; [apply Qle_refl|].
      rewrite Forall_forall in Ha. by apply Ha.
  - rewrite Forall_forall in Hall. apply Hall.
    by apply list_elem_of_fmap_2.
Qed.

Lemma max_distance_agrees_witness :
  exists stats group hi,
    calculateStatistics
      [mkLightnessGroupResult 0.5 0.1 0.3 0.2 7;
       mkLightnessGroupResult 0.6 0.2 0.6 0.4 9] = Ok stats
    /\ findMaxDistanceGroup
         [mkLightnessGroupResult 0.5 0.1 0.3 0.2 7;
          mkLightnessGroupResult 0.6 0.2 0.6 0.4 9] = Ok group
    /\ group ∈ [mkLightnessGroupResult 0.5 0.1 0.3 0.2 7;
                mkLightnessGroupResult 0.6 0.2 0.6 0.4 9]
    /\ maxDistance stats = Finite hi
    /\ hi == y_distance group.
Proof. by apply max_distance_agrees. Defined.

End MeasureFacts.
